(** * MBA2C: imagination-augmented agent, discretization codec and
    imagination core

  A shallow embedding of [src/imagination_augmented_agent.py] and
  [src/pacman_util.py].

  - Floating point values are modelled by rationals ([Q]); integer-valued
    floats that are used as dictionary keys (the results of [np.round] and
    [np.ceil]) are modelled by [Z].
  - A numpy array or a torch tensor is a shape together with its row-major
    (C-contiguous) data.
  - Python exceptions are values of [exn]; fallible code returns [result].
  - Python dictionaries are [gmap]s, built by inserting the items in
    iteration order (a later item overrides an earlier one). *)

From Stdlib Require Import ZArith QArith Qround List String Lia Lqa.
From stdpp Require Import gmap list strings.

Local Open Scope nat_scope.

(** ** Exceptions and results *)

Inductive exn : Type :=
| KeyError
| IndexError
| AssertionError
| TypeError
| ValueError (msg : string)
| RuntimeError (msg : string).

Inductive result (A : Type) : Type :=
| Ok (a : A)
| Raise (e : exn).
Arguments Ok {A} a.
Arguments Raise {A} e.

#[global] Instance result_ret : MRet result := fun _ a => Ok a.
#[global] Instance result_bind : MBind result := fun _ _ f m =>
match m with
| Ok a => f a
| Raise e => Raise e
end.

#[global] Instance result_fmap : FMap result := fun _ _ f m =>
match m with
| Ok a => Ok (f a)
| Raise e => Raise e
end.

Definition is_ok {A} (r : result A) : bool :=
match r with Ok _ => true | Raise _ => false end.

(** ** Arrays *)

Record tensor (A : Type) : Type := Tensor { shape : list nat; data : list A }.
Arguments Tensor {A} shape data.
Arguments shape {A} t.
Arguments data {A} t.

Definition prod_list (l : list nat) : nat := foldr Nat.mul 1 l.

Definition numel {A} (t : tensor A) : nat := prod_list (shape t).

(** The representation invariant of an array: as many elements as the shape
  announces. *)
Definition wf {A} (t : tensor A) : Prop := length (data t) = numel t.

(** [chunks count size l]: the first [count] consecutive blocks of [size]
  elements of [l]. *)
Fixpoint chunks {A} (count size : nat) (l : list A) : list (list A) :=
match count with
| 0 => []
| S c => take size l :: chunks c size (drop size l)
end.

(** The vector of [width] zeros with a one at position [k]. *)
Definition one_hot_row (width k : nat) : list Q :=
  <[k := 1%Q]> (replicate width 0%Q).

(** [enumerate(l)] *)
Definition enumerate {A} (l : list A) : list (nat * A) :=
zip (seq 0 (length l)) l.

(** [{k: v for k, v in kvs}]: items are inserted in order, so that the last
  binding of a key is the one that stays. *)
Definition dict_of {K V} `{Countable K} (kvs : list (K * V)) : gmap K V :=
foldl (fun m kv => <[kv.1 := kv.2]> m) ∅ kvs.

(** [d[k]] *)
Definition getitem {K V} `{Countable K} (d : gmap K V) (k : K) : result V :=
match d !! k with
| Some v => Ok v
| None => Raise KeyError
end.

(** A float as a dictionary key: floats that are equal as numbers are the
    same key, whatever their representation as a fraction. *)
Definition float_key (x : Q) : Z * positive :=
  (Qnum (Qred x), Qden (Qred x)).

(** The dictionary [{x: i for i, x in enumerate(l)}] over floats. *)
Definition index_of_floats (l : list Q) : gmap (Z * positive) nat :=
  dict_of (map (fun ix => (float_key ix.2, ix.1)) (enumerate l)).

(** ** numpy *)

Module np.

(** [np.round]: to the nearest integer, halves to the even neighbour. *)
Definition round (x : Q) : Z :=
  let f := Qfloor x in
  match (x - inject_Z f ?= 1 # 2)%Q with
  | Lt => f
  | Gt => (f + 1)%Z
  | Eq => if Z.even f then f else (f + 1)%Z
  end.

(** [np.ceil] *)
Definition ceil (x : Q) : Z := Qceiling x.

(** [a.transpose(0, 2, 3, 1)]: needs four axes. *)
Definition transpose_0231 (a : tensor Q) : result (tensor Q) :=
  match shape a with
  | [n; c; h; w] =>
      Ok (Tensor [n; h; w; c]
            (i ← seq 0 n; y ← seq 0 h; x ← seq 0 w; k ← seq 0 c;
             [nth (((i * c + k) * h + y) * w + x) (data a) 0%Q]))
  | _ => Raise (ValueError "axes don't match array")
  end.

(** [a.reshape(-1, 3)] *)
Definition reshape_m1_3 (a : tensor Q) : result (tensor Q) :=
  if numel a mod 3 =? 0
  then Ok (Tensor [numel a / 3; 3] (data a))
  else Raise (ValueError "cannot reshape array").

(** Iterating over a two-dimensional array yields its rows. *)
Definition rows (a : tensor Q) : list (list Q) :=
  match shape a with
  | [n; k] => chunks n k (data a)
  | _ => []
  end.

(** [np.array(rows)] for a list of rows of three numbers each; the empty
    list gives an array of shape [(0,)]. *)
Definition array_of_rows3 (l : list (list Q)) : tensor Q :=
  match l with
  | [] => Tensor [0] []
  | _ => Tensor [length l; 3] (concat l)
  end.

End np.

(** [pixel[k]] on a row of an array of floats. *)
Definition comp (pixel : list Q) (k : nat) : Q := nth k pixel 0%Q.

Definition as_floats (p : Z * Z * Z) : list Q :=
[inject_Z p.1.1; inject_Z p.1.2; inject_Z p.2].

(** ** [imagination_augmented_agent.py]: the codec *)

Module Agent.

Definition pixels : list (Z * Z * Z) :=
  [ (0, 1, 0); (0, 1, 1); (0, 0, 1); (1, 1, 1); (1, 1, 0); (0, 0, 0);
    (1, 0, 0) ]%Z.

Definition pixel_to_onehot : gmap (Z * Z * Z) nat :=
  dict_of (map (fun ip => (ip.2, ip.1)) (enumerate pixels)).

Definition num_pixels : nat := length pixels.

Definition pix_to_target (next_states : tensor Q) : result (list nat) :=
  t ← np.transpose_0231 next_states;
  r ← np.reshape_m1_3 t;
  mapM (fun pixel =>
          getitem pixel_to_onehot
            (np.round (comp pixel 0), np.round (comp pixel 1),
             np.round (comp pixel 2)))
       (np.rows r).

Definition to_pixel : gmap nat (Z * Z * Z) :=
  dict_of (map (fun kv => (kv.2, kv.1)) (map_to_list pixel_to_onehot)).

Definition target_to_pix (imagined_states : list nat) : result (tensor Q) :=
  pixels ← mapM (fun target => as_floats <$> getitem to_pixel target)
                imagined_states;
  mret (np.array_of_rows3 pixels).

(** The reward lists of the modes; [0.1] and the like are the rationals they
    denote. *)
Definition task_rewards : gmap string (list Q) :=
  dict_of
    [ ("regular", map inject_Z [0; 1; 2; 3; 4; 5; 6; 7; 8; 9]%Z);
      ("avoid", [1 # 10; -1 # 10; -5 # 1; -10 # 1; -20 # 1]%Q);
      ("hunt", [0; 1; 10 # 1; -20 # 1]%Q);
      ("ambush", [0; -1 # 10; 10 # 1; -20 # 1]%Q);
      ("rush", [0; -1 # 10; 99 # 10]%Q) ].

(** [{mode: {reward: i for i, reward in enumerate(task_rewards[mode])}
      for mode in task_rewards.keys()}] *)
Definition reward_to_onehot : gmap string (gmap (Z * positive) nat) :=
  index_of_floats <$> task_rewards.

Definition rewards_to_target (mode : string) (rewards : list Q)
  : result (list nat) :=
  mapM (fun reward =>
          d ← getitem reward_to_onehot mode;
          getitem d (float_key reward))
       rewards.

End Agent.

(** ** [pacman_util.py]: the codec *)

Module PacmanUtil.

Definition pixels : list (Z * Z * Z) :=
  [ (0, 1, 1); (0, 1, 0); (0, 0, 1); (1, 1, 1); (1, 1, 0); (0, 0, 0);
    (1, 0, 0) ]%Z.

Definition pixel_to_categorical : gmap (Z * Z * Z) nat :=
  dict_of (map (fun ip => (ip.2, ip.1)) (enumerate pixels)).

Definition num_pixels : nat := length pixels.

Definition pix_to_target (next_states : tensor Q) : result (list nat) :=
  match last (shape next_states) with
  | None => Raise IndexError
  | Some d =>
      if d =? 3 then
        r ← np.reshape_m1_3 next_states;
        mapM (fun pixel =>
                getitem pixel_to_categorical
                  (np.ceil (comp pixel 0), np.ceil (comp pixel 1),
                   np.ceil (comp pixel 2)))
             (np.rows r)
      else Raise AssertionError
  end.

Definition to_pixel : gmap nat (Z * Z * Z) :=
  dict_of (map (fun kv => (kv.2, kv.1)) (map_to_list pixel_to_categorical)).

Definition target_to_pix (imagined_states : list nat) : result (tensor Q) :=
  pixels ← mapM (fun target => as_floats <$> getitem to_pixel target)
                imagined_states;
  mret (np.array_of_rows3 pixels).

(** The reward lists of the modes. *)
Definition mode_rewards : gmap string (list Q) :=
  dict_of
    [ ("regular", map inject_Z [0; 1; 2; 3; 4; 5; 6; 7; 8; 9]%Z);
      ("avoid", [1 # 10; -1 # 10; -5 # 1; -10 # 1; -20 # 1]%Q);
      ("hunt", [0; 1; 10 # 1; -20 # 1]%Q);
      ("ambush", [0; -1 # 10; 10 # 1; -20 # 1]%Q);
      ("rush", [0; -1 # 10; 99 # 10]%Q) ].

(** [{mode: {reward: i for i, reward in enumerate(mode_rewards[mode])}
      for mode in mode_rewards.keys()}] *)
Definition reward_to_categorical : gmap string (gmap (Z * positive) nat) :=
  index_of_floats <$> mode_rewards.

Definition rewards_to_target (mode : string) (rewards : list Q)
  : result (list nat) :=
  mapM (fun reward =>
          d ← getitem reward_to_categorical mode;
          getitem d (float_key reward))
       rewards.

End PacmanUtil.

(** ** torch: the tensor operations the agent uses *)

Module torch.

(** [t.size(k)] *)
Definition size {A} (t : tensor A) (k : nat) : result nat :=
  match shape t !! k with
  | Some n => Ok n
  | None => Raise IndexError
  end.

(** [t.unsqueeze(0)] *)
Definition unsqueeze0 {A} (t : tensor A) : tensor A :=
  Tensor (1 :: shape t) (data t).

(** [t.squeeze(0)]: drops the leading axis when its size is one. *)
Definition squeeze0 {A} (t : tensor A) : result (tensor A) :=
  match shape t with
  | [] => Raise IndexError
  | 1 :: s => Ok (Tensor s (data t))
  | _ => Ok t
  end.

(** [t.repeat(k, 1, 1, 1, 1)]: five repeat counts, so at most five axes; a
    tensor with fewer axes gets leading axes of size one. Only the leading
    axis is repeated, so the data is [k] copies of the original. *)
Definition repeat0_5 {A} (t : tensor A) (k : nat) : result (tensor A) :=
  if length (shape t) <=? 5 then
    match replicate (5 - length (shape t)) 1 ++ shape t with
    | s0 :: s => Ok (Tensor (k * s0 :: s) (concat (replicate k (data t))))
    | [] => Raise (RuntimeError "repeat")
    end
  else Raise (RuntimeError "repeat dims can not be smaller than tensor dims").

(** [t.view( *spec )], where [None] stands for [-1]. *)
Definition view {A} (t : tensor A) (spec : list (option nat))
  : result (tensor A) :=
  let known := prod_list (omap id spec) in
  match length (filter (fun o => o = None) spec) with
  | 0 =>
      if known =? numel t then Ok (Tensor (omap id spec) (data t))
      else Raise (RuntimeError "size is invalid for input")
  | 1 =>
      if (known =? 0) || negb (numel t mod known =? 0)
      then Raise (RuntimeError "size is invalid for input")
      else Ok (Tensor (map (default (numel t / known)) spec) (data t))
  | _ => Raise (RuntimeError "only one dimension can be inferred")
  end.

(** [torch.ones( *sh )] and [torch.zeros( *sh )] *)
Definition ones (sh : list nat) : tensor Q :=
  Tensor sh (replicate (prod_list sh) 1%Q).
Definition zeros (sh : list nat) : tensor Q :=
  Tensor sh (replicate (prod_list sh) 0%Q).

(** [torch.LongTensor(rows)] for a list of rows of one index each. *)
Definition LongTensor_rows1 (rows : list (list nat)) : tensor nat :=
  match rows with
  | [] => Tensor [0] []
  | _ => Tensor [length rows; 1] (concat rows)
  end.

Definition cat_compatible {A} (dim : nat) (t0 t : tensor A) : bool :=
  (dim <? length (shape t))
  && bool_decide (take dim (shape t) = take dim (shape t0))
  && bool_decide (drop (S dim) (shape t) = drop (S dim) (shape t0)).

Definition dim_size {A} (dim : nat) (t : tensor A) : nat :=
  nth dim (shape t) 0.

(** [torch.cat(ts, dim)]: the tensors agree on every axis but [dim]; for every
    index of the axes before [dim] the blocks of the tensors follow each
    other. *)
Definition cat {A} (ts : list (tensor A)) (dim : nat) : result (tensor A) :=
  match ts with
  | [] => Raise (RuntimeError "expected a non-empty list of Tensors")
  | t0 :: _ =>
      if forallb (cat_compatible dim t0) ts then
        let pre := take dim (shape t0) in
        let post := drop (S dim) (shape t0) in
        Ok (Tensor (pre ++ sum_list (map (dim_size dim) ts) :: post)
              (o ← seq 0 (prod_list pre);
               t ← ts;
               let sz := dim_size dim t * prod_list post in
               take sz (drop (o * sz) (data t))))
      else Raise (RuntimeError "Sizes of tensors must match")
  end.

(** Index of the largest entry (the first one among equals). *)
Fixpoint argmax_from (best_i : nat) (best : Q) (i : nat) (l : list Q) : nat :=
  match l with
  | [] => best_i
  | x :: r =>
      if Qle_bool x best then argmax_from best_i best (S i) r
      else argmax_from i x (S i) r
  end.

Definition argmax (l : list Q) : nat :=
  match l with
  | [] => 0
  | x :: r => argmax_from 0 x 1 r
  end.

(** [F.softmax(t, dim=1).max(1)[1]]: for every index of the other axes, the
    position along axis 1 of the largest normalised score. [softmax] is the
    normalised exponential of one vector of scores. *)
Definition softmax_max1 (softmax : list Q -> list Q) (t : tensor Q)
  : result (tensor nat) :=
  match shape t with
  | d0 :: d1 :: rest =>
      if d1 =? 0 then Raise (RuntimeError "max over an empty dimension")
      else
        let r := prod_list rest in
        Ok (Tensor (d0 :: rest)
              (i ← seq 0 d0; j ← seq 0 r;
               [argmax (softmax (k ← seq 0 d1;
                                 [nth ((i * d1 + k) * r + j) (data t) 0%Q]))]))
  | _ => Raise IndexError
  end.

(** The assignments [t[i, j] = v] for the pairs [(i, j)] in order, on the data
    of a matrix with [rows] rows and [cols] columns. *)
Fixpoint index_put_loop (rows cols : nat) (ijs : list (nat * nat)) (v : Q)
  (d : list Q) : result (list Q) :=
  match ijs with
  | [] => Ok d
  | (i, j) :: rest =>
      if (i <? rows) && (j <? cols)
      then index_put_loop rows cols rest v (<[i * cols + j := v]> d)
      else Raise IndexError
  end.

(** [t[range(n), idx] = v] for a matrix [t] and a vector [idx] of [n] column
    indices (index tensors of other shapes are rejected). *)
Definition index_put_range (t : tensor Q) (n : nat) (idx : tensor nat) (v : Q)
  : result (tensor Q) :=
  match shape t with
  | [rows; cols] =>
      if bool_decide (shape idx = [n]) then
        d ← index_put_loop rows cols (zip (seq 0 n) (data idx)) v (data t);
        mret (Tensor [rows; cols] d)
      else Raise IndexError
  | _ => Raise IndexError
  end.

End torch.

(** ** autograd *)

(** The modules that own trainable parameters. *)
Inductive module_id : Type := EnvModelId | DistilPolicyId | I2AId.

#[global] Instance module_id_eq_dec : EqDecision module_id.
Proof. solve_decision. Defined.

(** An autograd variable: a tensor, whether it is volatile (inference mode: no
    history is recorded for anything computed from it), and the modules whose
    parameters a backward pass from it would reach. *)
Record var (A : Type) : Type :=
  MkVar { var_data : tensor A; volatile : bool; grad_deps : list module_id }.
Arguments MkVar {A} var_data volatile grad_deps.
Arguments var_data {A} v.
Arguments volatile {A} v.
Arguments grad_deps {A} v.

(** [Variable(t)] and [Variable(t, volatile=True)] *)
Definition Variable_ {A} (t : tensor A) (vol : bool) : var A := MkVar t vol [].

(** An operation without parameters on one variable. *)
Definition var_op {A B} (f : tensor A -> result (tensor B)) (v : var A)
  : result (var B) :=
  t ← f (var_data v);
  mret (MkVar t (volatile v) (if volatile v then [] else grad_deps v)).

(** The forward pass of a module [m] that owns parameters. *)
Definition var_module {A B} (m : module_id) (f : tensor A -> result (tensor B))
  (v : var A) : result (var B) :=
  t ← f (var_data v);
  mret (MkVar t (volatile v) (if volatile v then [] else m :: grad_deps v)).

(** [torch.cat([v1, v2], dim)] on variables; the result is volatile as soon as
    one of the inputs is. *)
Definition var_cat {A} (v1 v2 : var A) (dim : nat) : result (var A) :=
  t ← torch.cat [var_data v1; var_data v2] dim;
  let vol := volatile v1 || volatile v2 in
  mret (MkVar t vol (if vol then [] else grad_deps v1 ++ grad_deps v2)).

(** ** torch.nn: layers

    The shape discipline of every layer is the library's; the arithmetic of a
    layer with learned weights is a function carried by the layer (its
    weights are part of it). *)

Module nn.

Record Conv2d : Type := MkConv2d {
  in_channels : nat;
  out_channels : nat;
  kernel_size : nat;
  stride : nat;
  conv_arith : tensor Q -> list Q
}.

Record Linear : Type := MkLinear {
  in_features : nat;
  out_features : nat;
  linear_arith : tensor Q -> list Q
}.

Record GRU : Type := MkGRU {
  input_size : nat;
  hidden_size : nat;
  gru_output_arith : tensor Q -> list Q;
  gru_hidden_arith : tensor Q -> list Q
}.

(** The members of an [nn.Sequential]. *)
Inductive layer : Type :=
| LConv2d (c : Conv2d)
| LLinear (l : Linear)
| LReLU.

Definition Conv2d_forward (c : Conv2d) (x : tensor Q) : result (tensor Q) :=
  match shape x with
  | [n; ch; h; w] =>
      if (ch =? in_channels c) && (kernel_size c <=? h)
         && (kernel_size c <=? w) && (0 <? stride c)
      then Ok (Tensor [n; out_channels c;
                       (h - kernel_size c) / stride c + 1;
                       (w - kernel_size c) / stride c + 1]
                 (conv_arith c x))
      else Raise (RuntimeError "Conv2d: size mismatch")
  | _ => Raise (RuntimeError "Conv2d: expected a 4D input")
  end.

Definition Linear_forward (l : Linear) (x : tensor Q) : result (tensor Q) :=
  match last (shape x) with
  | Some k =>
      if k =? in_features l
      then Ok (Tensor (removelast (shape x) ++ [out_features l])
                 (linear_arith l x))
      else Raise (RuntimeError "Linear: size mismatch")
  | None => Raise (RuntimeError "Linear: size mismatch")
  end.

Definition relu (x : Q) : Q := if Qle_bool 0 x then x else 0%Q.

Definition ReLU_forward (x : tensor Q) : result (tensor Q) :=
  Ok (Tensor (shape x) (map relu (data x))).

(** [output, hidden = gru(x)] for a sequence-first input [(steps, batch,
    input_size)] and one layer, one direction. *)
Definition GRU_forward (g : GRU) (x : tensor Q)
  : result (tensor Q * tensor Q) :=
  match shape x with
  | [steps; batch; k] =>
      if (k =? input_size g) && (0 <? steps)
      then Ok (Tensor [steps; batch; hidden_size g] (gru_output_arith g x),
               Tensor [1; batch; hidden_size g] (gru_hidden_arith g x))
      else Raise (RuntimeError "GRU: size mismatch")
  | _ => Raise (RuntimeError "GRU: expected a 3D input")
  end.

Definition layer_forward (owner : module_id) (l : layer) (v : var Q)
  : result (var Q) :=
  match l with
  | LConv2d c => var_module owner (Conv2d_forward c) v
  | LLinear f => var_module owner (Linear_forward f) v
  | LReLU => var_op ReLU_forward v
  end.

(** [nn.Sequential( *layers )(v)] *)
Fixpoint Sequential_forward (owner : module_id) (layers : list layer)
  (v : var Q) : result (var Q) :=
  match layers with
  | [] => Ok v
  | l :: rest =>
      v' ← layer_forward owner l v;
      Sequential_forward owner rest v'
  end.

End nn.

(** ** The collaborators that are not part of the sources

    [EnvModel] ([common/environment_model.py]) and the distillation policy, an
    [ActorCritic] whose [act] comes from [OnPolicy]
    ([common/actor_critic.py]), are taken as parameters: the forward pass of
    the environment model as a function of its parameters and its input, the
    action choice of the policy as a function of its parameters, the state
    batch and a random generator that it may draw from. [softmax] is the
    arithmetic of [F.softmax] on one vector. *)
Class Collaborators : Type := {
  EnvParams : Type;
  PolicyParams : Type;
  RNG : Type;
  env_forward : EnvParams -> tensor Q -> result (tensor Q * tensor Q);
  policy_act : PolicyParams -> tensor Q -> RNG -> tensor nat * RNG;
  softmax : list Q -> list Q
}.

Section Model.

Context `{C : Collaborators}.

(** The mutable surroundings of a call: the parameters of the two shared
    models, the random generator, the inputs the environment model was
    queried with so far, and what was printed. *)
Record world : Type := World {
  env_params : EnvParams;
  policy_params : PolicyParams;
  rng : RNG;
  env_queries : list (var Q);
  stdout : list string
}.

Definition M (A : Type) : Type := world -> result A * world.

#[global] Instance M_ret : MRet M := fun _ a w => (Ok a, w).
#[global] Instance M_bind : MBind M := fun _ _ f m w =>
  match m w with
  | (Ok a, w') => f a w'
  | (Raise e, w') => (Raise e, w')
  end.

Definition lift {A} (r : result A) : M A := fun w => (r, w).
Definition raise {A} (e : exn) : M A := fun w => (Raise e, w).

Definition print (s : string) : M unit := fun w =>
  (Ok tt, World (env_params w) (policy_params w) (rng w) (env_queries w)
            (stdout w ++ [s])).

(** [self.env_model(v)]: the wrapped environment model, run on its current
    parameters. *)
Definition env_model (v : var Q) : M (var Q * var Q) := fun w =>
  let w' := World (env_params w) (policy_params w) (rng w)
              (env_queries w ++ [v]) (stdout w) in
  match env_forward (env_params w) (var_data v) with
  | Ok (image, reward) =>
      let deps := if volatile v then [] else EnvModelId :: grad_deps v in
      (Ok (MkVar image (volatile v) deps, MkVar reward (volatile v) deps), w')
  | Raise e => (Raise e, w')
  end.

(** [self.distil_policy.act(v)] *)
Definition distil_policy_act (v : var Q) : M (var nat) := fun w =>
  let '(action, g) := policy_act (policy_params w) (var_data v) (rng w) in
  (Ok (MkVar action (volatile v) []),
   World (env_params w) (policy_params w) g (env_queries w) (stdout w)).

(** *** [ImaginationCore] *)

Record ImaginationCore : Type := MkImaginationCore {
  ic_num_rolouts : nat;
  ic_in_shape : list nat;
  ic_num_actions : nat;
  ic_num_rewards : nat;
  ic_full_rollout : bool
}.

(** Iterating over [a.numpy()] when the elements are used as dictionary keys:
    only a vector yields scalars. *)
Definition numpy_scalars (a : tensor nat) : result (list nat) :=
  match shape a with
  | [_] => Ok (data a)
  | 0 :: _ => Ok []
  | _ => Raise TypeError
  end.

(** Line 207: the action plane that is concatenated onto the state. *)
Definition onehot_action_plane (self : ImaginationCore)
  (rollout_batch_size : nat) (action : tensor nat) : tensor Q :=
  torch.ones (rollout_batch_size :: ic_num_actions self
                :: tail (ic_in_shape self)).

(** One pass through the body of the loop (lines 203 to 233): the imagined
    state, the reward one-hot and the next action. *)
Definition rollout_step (self : ImaginationCore) (rollout_batch_size : nat)
  (state : tensor Q) (action : tensor nat)
  : M (tensor Q * tensor Q * tensor nat) :=
  let onehot_action := onehot_action_plane self rollout_batch_size action in
  inputs ← lift (torch.cat [state; onehot_action] 1);
  '(imagined_state, imagined_reward) ← env_model (Variable_ inputs true);
  imagined_state ←
    lift (var_data <$> var_op (torch.softmax_max1 softmax) imagined_state);
  imagined_reward ←
    lift (var_data <$> var_op (torch.softmax_max1 softmax) imagined_reward);
  imagined_state ←
    lift (targets ← numpy_scalars imagined_state;
          Agent.target_to_pix targets);
  imagined_state ←
    lift (torch.view imagined_state
            (Some rollout_batch_size :: map Some (ic_in_shape self)));
  onehot_reward ←
    lift (torch.index_put_range
            (torch.zeros [rollout_batch_size; ic_num_rewards self])
            rollout_batch_size imagined_reward 1%Q);
  action ← distil_policy_act (Variable_ imagined_state true);
  mret (imagined_state, onehot_reward, var_data action).

(** [for step in range(steps)], with the lists the loop appends to. *)
Fixpoint rollout_loop (self : ImaginationCore) (rollout_batch_size : nat)
  (steps : nat) (state : tensor Q) (action : tensor nat)
  (rollout_states rollout_rewards : list (tensor Q))
  : M (list (tensor Q) * list (tensor Q)) :=
  match steps with
  | 0 => mret (rollout_states, rollout_rewards)
  | S steps' =>
      '(imagined_state, onehot_reward, action') ←
        rollout_step self rollout_batch_size state action;
      rollout_loop self rollout_batch_size steps' imagined_state action'
        (rollout_states ++ [torch.unsqueeze0 imagined_state])
        (rollout_rewards ++ [torch.unsqueeze0 onehot_reward])
  end.

(** Lines 191 to 200: the rollout batch, the first actions and the rollout
    batch size. *)
Definition rollout_batch (self : ImaginationCore) (state : tensor Q)
  (batch_size : nat) : M (tensor Q * tensor nat * nat) :=
  if ic_full_rollout self then
    state ← lift (r ← torch.repeat0_5 (torch.unsqueeze0 state)
                         (ic_num_actions self);
                  torch.view r (None :: map Some (ic_in_shape self)));
    let action :=
      torch.LongTensor_rows1
        (concat (replicate batch_size
                   (map (fun i => [i]) (seq 0 (ic_num_actions self))))) in
    mret (state, action, batch_size * ic_num_actions self)
  else
    _ ← print "NOT USING FULL ROLLOUT";
    action ← distil_policy_act (Variable_ state true);
    raise (ValueError "CANNOT USE FULL ROLLOUT").

(** [ImaginationCore.__call__] *)
Definition ImaginationCore_call (self : ImaginationCore) (state : tensor Q)
  : M (tensor Q * tensor Q) :=
  batch_size ← lift (torch.size state 0);
  '(state, action, rollout_batch_size) ← rollout_batch self state batch_size;
  '(rollout_states, rollout_rewards) ←
    rollout_loop self rollout_batch_size (ic_num_rolouts self) state action
      [] [];
  lift (states ← torch.cat rollout_states 0;
        rewards ← torch.cat rollout_rewards 0;
        mret (states, rewards)).

(** *** [RolloutEncoder] *)

Record RolloutEncoder : Type := MkRolloutEncoder {
  enc_in_shape : list nat;
  enc_features : list nn.layer;
  enc_gru : nn.GRU
}.

(** The four layers of [self.features], in the encoder and in the agent. *)
Definition make_features (in_shape : list nat)
  (conv1 conv2 : tensor Q -> list Q) : result (list nn.layer) :=
  c ← match in_shape !! 0 with Some c => Ok c | None => Raise IndexError end;
  mret [nn.LConv2d (nn.MkConv2d c 16 3 1 conv1); nn.LReLU;
        nn.LConv2d (nn.MkConv2d 16 16 3 2 conv2); nn.LReLU].

(** [feature_size()], the same method in both classes. *)
Definition feature_size (features : list nn.layer) (in_shape : list nat)
  : result nat :=
  v ← nn.Sequential_forward I2AId features
        (Variable_ (torch.zeros (1 :: in_shape)) false);
  v ← var_op (fun t => torch.view t [Some 1; None]) v;
  torch.size (var_data v) 1.

(** The learned arithmetic of the layers of an agent. *)
Record I2A_weights : Type := MkI2A_weights {
  w_features1 : tensor Q -> list Q;
  w_features2 : tensor Q -> list Q;
  w_enc_features1 : tensor Q -> list Q;
  w_enc_features2 : tensor Q -> list Q;
  w_gru_output : tensor Q -> list Q;
  w_gru_hidden : tensor Q -> list Q;
  w_fc : tensor Q -> list Q;
  w_critic : tensor Q -> list Q;
  w_actor : tensor Q -> list Q
}.

(** [RolloutEncoder.__init__] *)
Definition RolloutEncoder_init (in_shape : list nat)
  (num_rewards hidden_size : nat) (θ : I2A_weights) : result RolloutEncoder :=
  features ← make_features in_shape (w_enc_features1 θ) (w_enc_features2 θ);
  fs ← feature_size features in_shape;
  mret (MkRolloutEncoder in_shape features
          (nn.MkGRU (fs + num_rewards) hidden_size
             (w_gru_output θ) (w_gru_hidden θ))).

(** [RolloutEncoder.forward] *)
Definition RolloutEncoder_forward (self : RolloutEncoder)
  (state reward : var Q) : result (var Q) :=
  num_steps ← torch.size (var_data state) 0;
  batch_size ← torch.size (var_data state) 1;
  state ← var_op (fun t => torch.view t
                             (None :: map Some (enc_in_shape self))) state;
  state ← nn.Sequential_forward I2AId (enc_features self) state;
  state ← var_op (fun t => torch.view t
                             [Some num_steps; Some batch_size; None]) state;
  rnn_input ← var_cat state reward 2;
  hidden ← var_module I2AId
             (fun t => snd <$> nn.GRU_forward (enc_gru self) t) rnn_input;
  var_op torch.squeeze0 hidden.

(** *** [I2A] *)

Record I2A : Type := MkI2A {
  i2a_in_shape : list nat;
  i2a_num_actions : nat;
  i2a_num_rewards : nat;
  i2a_imagination : ImaginationCore;
  i2a_features : list nn.layer;
  i2a_encoder : RolloutEncoder;
  i2a_fc : list nn.layer;
  i2a_critic : nn.Linear;
  i2a_actor : nn.Linear
}.

(** [I2A.__init__] *)
Definition I2A_init (in_shape : list nat)
  (num_actions num_rewards hidden_size : nat) (imagination : ImaginationCore)
  (full_rollout : bool) (θ : I2A_weights) : result I2A :=
  features ← make_features in_shape (w_features1 θ) (w_features2 θ);
  encoder ← RolloutEncoder_init in_shape num_rewards hidden_size θ;
  fs ← feature_size features in_shape;
  let fc :=
    if full_rollout
    then [nn.LLinear (nn.MkLinear (fs + num_actions * hidden_size) 256
                        (w_fc θ)); nn.LReLU]
    else [nn.LLinear (nn.MkLinear (fs + hidden_size) 256 (w_fc θ));
          nn.LReLU] in
  mret (MkI2A in_shape num_actions num_rewards imagination features encoder fc
          (nn.MkLinear 256 1 (w_critic θ))
          (nn.MkLinear 256 num_actions (w_actor θ))).

(** Lines 153 to 158 of [I2A.forward]: the imagination summary of the
    batch. *)
Definition I2A_hidden (self : I2A) (state : var Q) : M (var Q) :=
  batch_size ← lift (torch.size (var_data state) 0);
  '(imagined_state, imagined_reward) ←
    ImaginationCore_call (i2a_imagination self) (var_data state);
  lift (hidden ← RolloutEncoder_forward (i2a_encoder self)
                   (Variable_ imagined_state false)
                   (Variable_ imagined_reward false);
        var_op (fun t => torch.view t [Some batch_size; None]) hidden).

(** [I2A.forward] *)
Definition I2A_forward (self : I2A) (state : var Q) : M (var Q * var Q) :=
  hidden ← I2A_hidden self state;
  lift (state ← nn.Sequential_forward I2AId (i2a_features self) state;
        n ← torch.size (var_data state) 0;
        state ← var_op (fun t => torch.view t [Some n; None]) state;
        x ← var_cat state hidden 1;
        x ← nn.Sequential_forward I2AId (i2a_fc self) x;
        logit ← var_module I2AId (nn.Linear_forward (i2a_actor self)) x;
        value ← var_module I2AId (nn.Linear_forward (i2a_critic self)) x;
        mret (logit, value)).

End Model.

(** ** Concrete collaborators, for running the model

    A table-driven environment model for a seven-colour palette: the image
    scores of row [j] single out category [cats j], the reward scores of
    batch element [i] single out reward category [rews i]. The policy draws
    its actions from the generator, a counter. [softmax] is replaced by the
    identity, which orders the scores the same way. *)

Definition table_env_forward (num_rewards : nat) (cats rews : nat -> nat)
  (θ : unit) (x : tensor Q) : result (tensor Q * tensor Q) :=
  match shape x with
  | [n; c; h; w] =>
      Ok (Tensor [n * h * w; 7]
            (j ← seq 0 (n * h * w); one_hot_row 7 (cats j)),
          Tensor [n; num_rewards]
            (i ← seq 0 n; one_hot_row num_rewards (rews i)))
  | _ => Raise (RuntimeError "EnvModel: expected a 4D input")
  end.

Definition counter_policy_act (num_actions : nat) (θ : unit) (x : tensor Q)
  (g : nat) : tensor nat * nat :=
  let n := nth 0 (shape x) 0 in
  (Tensor [n; 1] (map (fun i => (g + i) mod num_actions) (seq 0 n)), g + n).

Definition table_collaborators (num_actions num_rewards : nat)
  (cats rews : nat -> nat) : Collaborators :=
  {| EnvParams := unit;
     PolicyParams := unit;
     RNG := nat;
     env_forward := table_env_forward num_rewards cats rews;
     policy_act := counter_policy_act num_actions;
     softmax := fun l => l |}.

Definition zero_weights : I2A_weights :=
  let z := fun _ : tensor Q => @nil Q in
  MkI2A_weights z z z z z z z z z.

(** ** Vocabulary of the statements *)

(** The pixel of batch element [i] at row [y] and column [x] of a
    channel-first batch [(n, c, h, w)]: its components across the channels. *)
Definition cell_pixel (a : tensor Q) (i y x : nat) : list Q :=
  match shape a with
  | [n; c; h; w] =>
      map (fun k => nth (((i * c + k) * h + y) * w + x) (data a) 0%Q) (seq 0 c)
  | _ => []
  end.

(** Pixel number [r] of a channel-last array [(..., 3)]. *)
Definition row_pixel (a : tensor Q) (r : nat) : list Q :=
  take 3 (drop (r * 3) (data a)).

Definition rounded (pixel : list Q) : Z * Z * Z :=
  (np.round (comp pixel 0), np.round (comp pixel 1), np.round (comp pixel 2)).

Definition ceiled (pixel : list Q) : Z * Z * Z :=
  (np.ceil (comp pixel 0), np.ceil (comp pixel 1), np.ceil (comp pixel 2)).

(** The spatial cells of a batch, in row-major order. *)
Definition cells (n h w : nat) : list (nat * nat * nat) :=
  i ← seq 0 n; y ← seq 0 h; x ← seq 0 w; [(i, y, x)].

(** A row with exactly one entry equal to one and zeros elsewhere. *)
Definition is_one_hot (row : list Q) : Prop :=
  exists k, k < length row /\ row = one_hot_row (length row) k.

(** [t[k]]: the slice of [t] at index [k] of its leading axis. *)
Definition select0 {A} (t : tensor A) (k : nat) : tensor A :=
  let sz := prod_list (tail (shape t)) in
  Tensor (tail (shape t)) (take sz (drop (k * sz) (data t))).

(** An imagined state batch [(n, 3, h, w)] as the decoder leaves it: the
    data is a sequence of palette entries, three numbers each. *)
Definition decoded_state (n h w : nat) (s : tensor Q) : Prop :=
  shape s = [n; 3; h; w] /\
  exists pix, length pix = n * h * w /\
    Forall (fun p => p ∈ Agent.pixels) pix /\
    data s = concat (map as_floats pix).

(** A reward batch [(n, width)] whose rows are one-hot. *)
Definition one_hot_rewards (n width : nat) (r : tensor Q) : Prop :=
  shape r = [n; width] /\
  exists idx, length idx = n /\ Forall (fun k => k < width) idx /\
    data r = concat (map (one_hot_row width) idx).

(** The height (or width) of the feature maps after the two convolutions of
    [features]: kernel 3 and stride 1, then kernel 3 and stride 2. *)
Definition conv_out (h : nat) : nat := (h - 3 + 1 - 3) / 2 + 1.

(** The number of features of an observation of [h] by [w] cells. *)
Definition features_width (h w : nat) : nat := 16 * (conv_out h * conv_out w).

Section Contracts.

Context `{C : Collaborators}.

(** The interface of the environment model, as the specification gives it
    (External interfaces, Environment Model) and as the call uses it: on a
    batch of states with the action planes appended along the channel axis it
    returns one row of palette scores per spatial cell and one row of reward
    scores per batch element. *)
Definition env_model_contract (self : ImaginationCore) : Prop :=
  forall (θ : EnvParams) (x : tensor Q) (n c h w : nat),
    ic_in_shape self = [c; h; w] ->
    shape x = [n; c + ic_num_actions self; h; w] ->
    exists image reward,
      env_forward θ x = Ok (image, reward) /\
      shape image = [n * h * w; Agent.num_pixels] /\
      shape reward = [n; ic_num_rewards self].

(** [F.softmax] keeps the length of a vector. *)
Definition softmax_contract : Prop :=
  forall l : list Q, length (softmax l) = length l.

(** Two surroundings with the same model parameters; the generator, the
    query log and the printed lines are free. *)
Definition same_weights (w1 w2 : world) : Prop :=
  env_params w1 = env_params w2 /\ policy_params w1 = policy_params w2.

(** Two runs that end alike: the same value in surroundings with the same
    parameters, or the same exception. *)
Definition agree {A} (r1 r2 : result A * world) : Prop :=
  match r1, r2 with
  | (Ok x1, σ1'), (Ok x2, σ2') => x1 = x2 /\ same_weights σ1' σ2'
  | (Raise e1, _), (Raise e2, _) => e1 = e2
  | _, _ => False
  end.

(** What a computation may do to its surroundings: it leaves the parameters
    of both models as they are, and every query it sends to the environment
    model is volatile and carries no history. *)
Definition frame (σ σ' : world) : Prop :=
  env_params σ' = env_params σ /\
  policy_params σ' = policy_params σ /\
  exists qs, env_queries σ' = env_queries σ ++ qs /\
    Forall (fun q => volatile q = true /\ grad_deps q = []) qs.

End Contracts.

Section PolicyFree.

Context `{C : Collaborators}.

(** Two surroundings that hold the same parameters of the environment model;
    everything else, the parameters of the policy included, is free. *)
Definition same_env (σ1 σ2 : world) : Prop := env_params σ1 = env_params σ2.

(** Two runs that end alike, up to the policy: the same value in
    surroundings with the same environment model, or the same exception. *)
Definition agree_env {A} (r1 r2 : result A * world) : Prop :=
  match r1, r2 with
  | (Ok x1, σ1'), (Ok x2, σ2') => x1 = x2 /\ same_env σ1' σ2'
  | (Raise e1, _), (Raise e2, _) => e1 = e2
  | _, _ => False
  end.

End PolicyFree.

(** ** Concrete runs *)

(** An environment model that answers with the categories 4, 0, 4, 0, ... for
    the cells and with the reward categories 0, 1, 2, 3, 0, ... for the batch
    elements. *)
Definition demo : Collaborators :=
  table_collaborators 2 4 (fun j => if Nat.even j then 4 else 0)
    (fun i => i mod 4).

Definition demo_world (g : nat) : @world demo := @World demo tt tt g [] [].

(** The same environment model with a policy that has a parameter of its
    own, an offset added to the counter. *)
Definition demo_offset : Collaborators :=
  {| EnvParams := unit;
     PolicyParams := nat;
     RNG := nat;
     env_forward :=
       table_env_forward 4 (fun j => if Nat.even j then 4 else 0)
         (fun i => i mod 4);
     policy_act := fun θ x g => counter_policy_act 2 tt x (θ + g);
     softmax := fun l => l |}.


(** One observation of one row and two columns, one action, depth one. *)
Definition demo_core_1x2 : ImaginationCore :=
  MkImaginationCore 1 [3; 1; 2] 1 4 true.
Definition demo_state_1x2 : tensor Q := Tensor [1; 3; 1; 2] (replicate 6 0%Q).

(** One observation of a single cell, the pixel [(0, 1, 0)], two actions,
    depth two. *)
Definition demo_core_1x1 : ImaginationCore :=
  MkImaginationCore 2 [3; 1; 1] 2 4 true.
Definition demo_state_1x1 : tensor Q :=
  Tensor [1; 3; 1; 1] (as_floats (0, 1, 0)%Z).

(** The same core with [full_rollout=False]. *)
Definition demo_core_reduced : ImaginationCore :=
  MkImaginationCore 2 [3; 1; 1] 2 4 false.

(** One observation of 5 by 5 cells for an agent with two actions, hidden
    size three and depth one. *)
Definition demo_core_5x5 : ImaginationCore :=
  MkImaginationCore 1 [3; 5; 5] 2 4 true.
Definition demo_state_5x5 : var Q :=
  Variable_ (Tensor [1; 3; 5; 5] (replicate 75 0%Q)) false.

(** The agent that [I2A.__init__] builds for that core. *)
Definition demo_agent_5x5 : I2A :=
  match I2A_init [3; 5; 5] 2 4 3 demo_core_5x5 true zero_weights with
  | Ok net => net
  | Raise _ =>
      MkI2A [] 0 0 demo_core_5x5 []
        (MkRolloutEncoder [] [] (nn.MkGRU 0 0 (fun _ => []) (fun _ => [])))
        [] (nn.MkLinear 0 0 (fun _ => [])) (nn.MkLinear 0 0 (fun _ => []))
  end.

(** ** Dictionaries and loops over lists *)

Lemma foldl_insert_lookup_None {K V} `{Countable K} (kvs : list (K * V))
  (m : gmap K V) (k : K) :
  foldl (fun m kv => <[kv.1 := kv.2]> m) m kvs !! k = None <->
  m !! k = None /\ k ∉ kvs.*1.
Proof.
  revert m. induction kvs as [|[k' v'] kvs IH]; intros m; simpl.
  - split; [intros Hm; split; [done | apply not_elem_of_nil] | tauto].
  - rewrite IH, lookup_insert_None, not_elem_of_cons. simpl.
    split; [intros [[? ?] ?] | intros [? [? ?]]]; repeat split; auto.
Qed.

Lemma dict_of_lookup_None {K V} `{Countable K} (kvs : list (K * V)) (k : K) :
  dict_of kvs !! k = None <-> k ∉ kvs.*1.
Proof.
  unfold dict_of. rewrite foldl_insert_lookup_None, lookup_empty. tauto.
Qed.

Lemma Agent_absent (k : Z * Z * Z) :
  Agent.pixel_to_onehot !! k = None <-> k ∉ Agent.pixels.
Proof. unfold Agent.pixel_to_onehot. by rewrite dict_of_lookup_None. Qed.

Lemma PacmanUtil_absent (k : Z * Z * Z) :
  PacmanUtil.pixel_to_categorical !! k = None <-> k ∉ PacmanUtil.pixels.
Proof. unfold PacmanUtil.pixel_to_categorical. by rewrite dict_of_lookup_None. Qed.

Lemma mapM_result_cons {A B} (f : A -> result B) (x : A) (l : list A) :
  mapM f (x :: l) =
  match f x with
  | Ok y => match mapM f l with Ok k => Ok (y :: k) | Raise e => Raise e end
  | Raise e => Raise e
  end.
Proof. simpl. unfold mbind, result_bind. by destruct (f x). Qed.

Lemma mapM_getitem_Ok {A K V} `{Countable K} (d : gmap K V) (key : A -> K)
  (l : list A) :
  Forall (fun x => d !! key x <> None) l ->
  exists ys, mapM (fun x => getitem d (key x)) l = Ok ys /\ length ys = length l.
Proof.
  induction 1 as [|x l Hx _ [ys [IH Hlen]]].
  - by exists [].
  - rewrite mapM_result_cons, IH. unfold getitem.
    destruct (d !! key x) as [v|] eqn:E; [|done].
    exists (v :: ys). simpl. by rewrite Hlen.
Qed.

Lemma mapM_getitem_Raise {A K V} `{Countable K} (d : gmap K V) (key : A -> K)
  (l : list A) :
  Exists (fun x => d !! key x = None) l ->
  mapM (fun x => getitem d (key x)) l = Raise KeyError.
Proof.
  induction l as [|x l IH]; intros HE.
  - by apply Exists_nil in HE.
  - rewrite mapM_result_cons. unfold getitem at 1.
    destruct (d !! key x) as [v|] eqn:E; [|done].
    apply Exists_cons in HE as [HE|HE]; [congruence|].
    by rewrite (IH HE).
Qed.

Lemma mapM_getitem_KeyError_iff {A K V} `{Countable K} (d : gmap K V)
  (key : A -> K) (l : list A) :
  mapM (fun x => getitem d (key x)) l = Raise KeyError <->
  Exists (fun x => d !! key x = None) l.
Proof.
  split; [|apply mapM_getitem_Raise].
  intros HR. destruct (decide (Exists (fun x => d !! key x = None) l)) as [|HN];
    [done|].
  apply not_Exists_Forall in HN; [|intros x; apply _].
  destruct (mapM_getitem_Ok d key l) as [ys [E _]]; [|congruence].
  eapply Forall_impl; [exact HN|]. simpl. auto.
Qed.

(** ** Blocks of a list *)

Lemma chunks_length {A} (count size : nat) (l : list A) :
  length (chunks count size l) = count.
Proof. revert l. induction count; intros l; simpl; [done | by rewrite IHcount]. Qed.

Lemma chunks_app {A} (size : nat) (r : list A) (rs : list (list A))
  (rest : list A) (count : nat) :
  length r = size ->
  chunks (S count) size (r ++ rest) = r :: chunks count size rest.
Proof.
  intros Hr. simpl. rewrite take_app_length' by done.
  by rewrite drop_app_length' by done.
Qed.

Lemma chunks_bind {A B} (f : A -> list B) (size : nat) (l : list A) :
  (forall x, length (f x) = size) ->
  chunks (length l) size (l ≫= f) = map f l.
Proof.
  intros Hf. induction l as [|x l IH]; [done|].
  rewrite bind_cons. simpl length. rewrite (chunks_app size _ []) by done.
  simpl. by rewrite IH.
Qed.

Lemma chunks_seq {A} (count size : nat) (l : list A) :
  chunks count size l =
  map (fun r => take size (drop (r * size) l)) (seq 0 count).
Proof.
  revert l. induction count as [|c IH]; intros l; [done|].
  simpl. f_equal. rewrite IH, <- fmap_S_seq, <- list_fmap_compose.
  apply list_fmap_ext. intros _ r _. simpl. rewrite drop_drop. done.
Qed.

Lemma list_bind_assoc {A B D} (f : A -> list B) (g : B -> list D)
  (l : list A) :
  (l ≫= f) ≫= g = l ≫= (fun x => f x ≫= g).
Proof.
  induction l as [|x l IH]; [done|].
  by rewrite !bind_cons, bind_app, IH.
Qed.

Lemma concat_map_bind {A B} (f : A -> list B) (l : list A) :
  concat (map f l) = l ≫= f.
Proof.
  induction l as [|x l IH]; [done|]. rewrite bind_cons, <- IH. done.
Qed.

Lemma bind_length_const {A B} (f : A -> list B) (k : nat) (l : list A) :
  (forall x, length (f x) = k) -> length (l ≫= f) = length l * k.
Proof.
  intros Hf. induction l as [|x l IH]; [done|].
  rewrite bind_cons, length_app, IH, Hf. simpl. lia.
Qed.

Lemma cells_length (n h w : nat) : length (cells n h w) = n * h * w.
Proof.
  unfold cells.
  rewrite (bind_length_const _ (h * w)), length_seq; [lia|].
  intros i. rewrite (bind_length_const _ w), length_seq; [lia|].
  intros y. rewrite (bind_length_const _ 1), length_seq; [lia|done].
Qed.

Lemma elem_of_cells (n h w i y x : nat) :
  (i, y, x) ∈ cells n h w <-> i < n /\ y < h /\ x < w.
Proof.
  unfold cells. rewrite list_elem_of_bind. split.
  - intros (i' & Hy & Hi). apply list_elem_of_bind in Hy as (y' & Hx & Hy).
    apply list_elem_of_bind in Hx as (x' & Hc & Hx).
    apply list_elem_of_singleton in Hc. injection Hc as -> -> ->.
    apply elem_of_seq in Hi, Hy, Hx. lia.
  - intros (Hi & Hy & Hx). exists i. split; [|apply elem_of_seq; lia].
    apply list_elem_of_bind. exists y. split; [|apply elem_of_seq; lia].
    apply list_elem_of_bind. exists x. split; [|apply elem_of_seq; lia].
    by apply list_elem_of_singleton.
Qed.

Lemma cells_bind {B} (g : nat -> nat -> nat -> list B) (n h w : nat) :
  (i ← seq 0 n; y ← seq 0 h; x ← seq 0 w; g i y x) =
  cells n h w ≫= (fun c => g c.1.1 c.1.2 c.2).
Proof.
  unfold cells. rewrite list_bind_assoc. apply list_bind_ext; [|done].
  intros i. rewrite list_bind_assoc. apply list_bind_ext; [|done].
  intros y. rewrite list_bind_assoc. apply list_bind_ext; [|done].
  intros x. by rewrite bind_singleton.
Qed.

(** ** The pixels the encoders look at *)

Lemma Agent_pixel_rows (a : tensor Q) (n h w : nat) :
  shape a = [n; 3; h; w] ->
  exists t r,
    np.transpose_0231 a = Ok t /\ np.reshape_m1_3 t = Ok r /\
    np.rows r = map (fun c => cell_pixel a c.1.1 c.1.2 c.2) (cells n h w).
Proof.
  intros Ha. unfold np.transpose_0231. rewrite Ha.
  eexists _, _. split; [done|].
  unfold np.reshape_m1_3, numel. simpl shape.
  replace (prod_list [n; h; w; 3]) with (n * h * w * 3) by (simpl; lia).
  rewrite Nat.Div0.mod_mul, Nat.div_mul by done. simpl (0 =? 0).
  cbv iota. split; [done|].
  unfold np.rows. cbn [shape data].
  rewrite (cells_bind (fun i y x =>
             [nth (((i * 3 + 0) * h + y) * w + x) (data a) 0%Q;
              nth (((i * 3 + 1) * h + y) * w + x) (data a) 0%Q;
              nth (((i * 3 + 2) * h + y) * w + x) (data a) 0%Q])).
  rewrite <- (cells_length n h w), (chunks_bind _ 3) by done.
  apply list_fmap_ext. intros _ [[i y] x] _. unfold cell_pixel.
  by rewrite Ha.
Qed.

Lemma PacmanUtil_pixel_rows (a : tensor Q) (pre : list nat) :
  shape a = pre ++ [3] ->
  last (shape a) = Some 3 /\
  exists r, np.reshape_m1_3 a = Ok r /\
    np.rows r = map (row_pixel a) (seq 0 (prod_list pre)).
Proof.
  intros Ha. split; [by rewrite Ha, last_snoc|].
  unfold np.reshape_m1_3, numel. rewrite Ha.
  assert (prod_list (pre ++ [3]) = prod_list pre * 3) as ->.
  { clear Ha. unfold prod_list. rewrite foldr_app. simpl.
    induction pre as [|p pre IH]; simpl; [lia|]. rewrite IH. lia. }
  rewrite Nat.Div0.mod_mul, Nat.div_mul by done. simpl (0 =? 0). cbv iota.
  eexists. split; [done|]. unfold np.rows. cbn [shape data].
  by rewrite chunks_seq.
Qed.

(** ** The codec *)

Lemma Agent_pix_to_target_spec (a : tensor Q) (n h w : nat) :
  shape a = [n; 3; h; w] ->
  Agent.pix_to_target a =
  mapM (fun pixel => getitem Agent.pixel_to_onehot (rounded pixel))
       (map (fun c => cell_pixel a c.1.1 c.1.2 c.2) (cells n h w)).
Proof.
  intros Ha. destruct (Agent_pixel_rows a n h w Ha) as (t & r & Ht & Hr & Hrows).
  unfold Agent.pix_to_target. rewrite Ht. cbn [mbind result_bind].
  rewrite Hr. cbn [mbind result_bind]. by rewrite Hrows.
Qed.

Lemma PacmanUtil_pix_to_target_spec (a : tensor Q) (pre : list nat) :
  shape a = pre ++ [3] ->
  PacmanUtil.pix_to_target a =
  mapM (fun pixel => getitem PacmanUtil.pixel_to_categorical (ceiled pixel))
       (map (row_pixel a) (seq 0 (prod_list pre))).
Proof.
  intros Ha. destruct (PacmanUtil_pixel_rows a pre Ha) as (Hl & r & Hr & Hrows).
  unfold PacmanUtil.pix_to_target. rewrite Hl. simpl (3 =? 3). cbv iota.
  rewrite Hr. cbn [mbind result_bind]. by rewrite Hrows.
Qed.

(** C8. [pix_to_target] raises [KeyError] (the unknown-pixel error) exactly
    when the rounded components of some pixel are not an entry of the
    palette; when all are, it returns one category index per pixel. In
    [imagination_augmented_agent.py] the input is a channel-first batch
    [(n, 3, h, w)], a pixel is a spatial cell and rounding is [np.round]; in
    [pacman_util.py] the input is channel-last, [( *pre, 3 )], a pixel is a
    row of three and rounding is [np.ceil]. *)
Theorem pix_to_target_raises_iff_absent
  (a b : tensor Q) (n h w : nat) (pre : list nat)
  (Ha : shape a = [n; 3; h; w]) (Hb : shape b = pre ++ [3]) :
  (Agent.pix_to_target a = Raise KeyError <->
   exists i y x, i < n /\ y < h /\ x < w /\
     rounded (cell_pixel a i y x) ∉ Agent.pixels) /\
  ((forall i y x, i < n -> y < h -> x < w ->
      rounded (cell_pixel a i y x) ∈ Agent.pixels) ->
   exists target, Agent.pix_to_target a = Ok target /\
     length target = n * h * w) /\
  (PacmanUtil.pix_to_target b = Raise KeyError <->
   exists r, r < prod_list pre /\
     ceiled (row_pixel b r) ∉ PacmanUtil.pixels) /\
  ((forall r, r < prod_list pre ->
      ceiled (row_pixel b r) ∈ PacmanUtil.pixels) ->
   exists target, PacmanUtil.pix_to_target b = Ok target /\
     length target = prod_list pre).
Proof.
  rewrite (Agent_pix_to_target_spec a n h w Ha).
  rewrite (PacmanUtil_pix_to_target_spec b pre Hb).
  repeat split.
  - intros HR. apply mapM_getitem_KeyError_iff, Exists_exists in HR.
    destruct HR as (p & Hp & Habs). apply list_elem_of_fmap in Hp.
    destruct Hp as ([[i y] x] & -> & Hc). apply elem_of_cells in Hc.
    exists i, y, x. rewrite <- Agent_absent. tauto.
  - intros (i & y & x & Hi & Hy & Hx & Habs).
    apply mapM_getitem_KeyError_iff, Exists_exists.
    exists (cell_pixel a i y x). split; [|by apply Agent_absent].
    apply list_elem_of_fmap. exists (i, y, x). split; [done|].
    apply elem_of_cells. tauto.
  - intros Hall.
    destruct (mapM_getitem_Ok Agent.pixel_to_onehot rounded
                (map (fun c => cell_pixel a c.1.1 c.1.2 c.2) (cells n h w)))
      as (ys & E & Hlen).
    + apply Forall_forall. intros p Hp. apply list_elem_of_fmap in Hp.
      destruct Hp as ([[i y] x] & -> & Hc). apply elem_of_cells in Hc.
      rewrite Agent_absent. intros Habs. apply Habs, Hall; tauto.
    + exists ys. split; [done|]. by rewrite Hlen, length_map, cells_length.
  - intros HR. apply mapM_getitem_KeyError_iff, Exists_exists in HR.
    destruct HR as (p & Hp & Habs). apply list_elem_of_fmap in Hp.
    destruct Hp as (r & -> & Hr). apply elem_of_seq in Hr.
    exists r. rewrite <- PacmanUtil_absent. split; [lia|done].
  - intros (r & Hr & Habs).
    apply mapM_getitem_KeyError_iff, Exists_exists.
    exists (row_pixel b r). split; [|by apply PacmanUtil_absent].
    apply list_elem_of_fmap. exists r. split; [done|].
    apply elem_of_seq. lia.
  - intros Hall.
    destruct (mapM_getitem_Ok PacmanUtil.pixel_to_categorical ceiled
                (map (row_pixel b) (seq 0 (prod_list pre))))
      as (ys & E & Hlen).
    + apply Forall_forall. intros p Hp. apply list_elem_of_fmap in Hp.
      destruct Hp as (r & -> & Hr). apply elem_of_seq in Hr.
      rewrite PacmanUtil_absent. intros Habs. apply Habs, Hall. lia.
    + exists ys. split; [done|]. by rewrite Hlen, length_map, length_seq.
Qed.

(** An observation with one unknown pixel and one all of whose pixels are
    known. *)
Lemma pix_to_target_raises_iff_absent_witness :
  Agent.pix_to_target (Tensor [1; 3; 1; 2] (map inject_Z [1; 0; 0; 0; 1; 0]%Z))
    = Raise KeyError /\
  PacmanUtil.pix_to_target (Tensor [2; 3] (map inject_Z [1; 0; 1; 0; 0; 0]%Z))
    = Raise KeyError.
Proof.
  pose proof (pix_to_target_raises_iff_absent
                (Tensor [1; 3; 1; 2] (map inject_Z [1; 0; 0; 0; 1; 0]%Z))
                (Tensor [2; 3] (map inject_Z [1; 0; 1; 0; 0; 0]%Z))
                1 1 2 [2] eq_refl eq_refl) as (HA & _ & HP & _).
  split.
  - apply HA. exists 0, 0, 0. repeat split; try lia.
    vm_compute. intros H. by repeat (inversion H as [|? ? ? H']; subst; clear H; rename H' into H).
  - apply HP. exists 0. split; [simpl; lia|].
    vm_compute. intros H. by repeat (inversion H as [|? ? ? H']; subst; clear H; rename H' into H).
Defined.

Lemma palettes_same_entries (p : Z * Z * Z) :
  p ∈ Agent.pixels <-> p ∈ PacmanUtil.pixels.
Proof.
  unfold Agent.pixels, PacmanUtil.pixels.
  rewrite !elem_of_cons. tauto.
Qed.

(** C7. For every entry [p] of the palette, encoding the one-pixel
    observation [p] with [pix_to_target] and decoding the result with
    [target_to_pix] gives back the one-pixel array [[p]], in
    [imagination_augmented_agent.py] (channel-first input) and in
    [pacman_util.py] (channel-last input). *)
Theorem decode_encode_palette (p : Z * Z * Z) (Hp : p ∈ Agent.pixels) :
  (Agent.pix_to_target (Tensor [1; 3; 1; 1] (as_floats p))
     ≫= Agent.target_to_pix) = Ok (Tensor [1; 3] (as_floats p)) /\
  (PacmanUtil.pix_to_target (Tensor [1; 3] (as_floats p))
     ≫= PacmanUtil.target_to_pix) = Ok (Tensor [1; 3] (as_floats p)).
Proof.
  unfold Agent.pixels in Hp.
  repeat (apply elem_of_cons in Hp as [-> | Hp]); [..|by apply elem_of_nil in Hp];
    split; vm_compute; reflexivity.
Qed.

Lemma decode_encode_palette_witness :
  (Agent.pix_to_target (Tensor [1; 3; 1; 1] (as_floats (1, 1, 0)%Z))
     ≫= Agent.target_to_pix) = Ok (Tensor [1; 3] (as_floats (1, 1, 0)%Z)) /\
  (PacmanUtil.pix_to_target (Tensor [1; 3] (as_floats (1, 1, 0)%Z))
     ≫= PacmanUtil.target_to_pix) = Ok (Tensor [1; 3] (as_floats (1, 1, 0)%Z)).
Proof.
  apply (decode_encode_palette (1, 1, 0)%Z).
  unfold Agent.pixels. repeat constructor.
Defined.

(** C3, what the code does. On the channel-first and channel-last readable
    array [[[[0,0,0]],[[0,1,0]],[[0,0,0]]]] both encoders succeed and return
    different categories, because the two palettes list [(0,1,0)] and
    [(0,1,1)] in opposite order; on the array of the same shape filled with
    [0.3] they differ because one rounds to nearest and the other rounds up;
    and the two decoders return different pixels for the categories 0 and
    1. *)
Theorem codecs_disagree :
  let a := Tensor [1; 3; 1; 3] (map inject_Z [0; 0; 0; 0; 1; 0; 0; 0; 0]%Z) in
  let b := Tensor [1; 3; 1; 3] (replicate 9 (3 # 10)%Q) in
  Agent.pix_to_target a = Ok [5; 0; 5] /\
  PacmanUtil.pix_to_target a = Ok [5; 1; 5] /\
  Agent.pix_to_target b = Ok [5; 5; 5] /\
  PacmanUtil.pix_to_target b = Ok [3; 3; 3] /\
  Agent.target_to_pix [0] = Ok (Tensor [1; 3] (as_floats (0, 1, 0)%Z)) /\
  PacmanUtil.target_to_pix [0] = Ok (Tensor [1; 3] (as_floats (0, 1, 1)%Z)) /\
  Agent.target_to_pix [1] = Ok (Tensor [1; 3] (as_floats (0, 1, 1)%Z)) /\
  PacmanUtil.target_to_pix [1] = Ok (Tensor [1; 3] (as_floats (0, 1, 0)%Z)).
Proof. repeat split; vm_compute; reflexivity. Qed.

(** ** Facts about the tensor operations *)

Lemma prod_list_app (l1 l2 : list nat) :
  prod_list (l1 ++ l2) = prod_list l1 * prod_list l2.
Proof.
  unfold prod_list. induction l1 as [|x l1 IH]; simpl; [lia|].
  rewrite IH. lia.
Qed.

Lemma omap_id_fmap_Some {A} (l : list A) : omap id (map Some l) = l.
Proof. induction l as [|x l IH]; [done|]. csimpl. by f_equal. Qed.

Lemma map_default_Some {A} (d : A) (l : list A) :
  map (default d) (map Some l) = l.
Proof. induction l as [|x l IH]; [done|]. cbn [map default]. by f_equal. Qed.

Lemma filter_None_fmap_Some {A} (l : list A) :
  filter (fun o : option A => o = None) (map Some l) = [].
Proof.
  induction l as [|x l IH]; [done|]. simpl.
  rewrite filter_cons_False by done. exact IH.
Qed.

Lemma view_exact {A} (t : tensor A) (sh : list nat) :
  prod_list sh = numel t ->
  torch.view t (map Some sh) = Ok (Tensor sh (data t)).
Proof.
  intros Hn. unfold torch.view.
  rewrite filter_None_fmap_Some, omap_id_fmap_Some. simpl.
  by rewrite Hn, Nat.eqb_refl.
Qed.

Lemma view_front {A} (t : tensor A) (sh : list nat) :
  prod_list sh <> 0 -> numel t mod prod_list sh = 0 ->
  torch.view t (None :: map Some sh) =
  Ok (Tensor (numel t / prod_list sh :: sh) (data t)).
Proof.
  intros Hk Hm. unfold torch.view.
  rewrite filter_cons_True by done. rewrite filter_None_fmap_Some.
  simpl omap. rewrite omap_id_fmap_Some. simpl length. cbv iota.
  apply Nat.eqb_neq in Hk. rewrite Hk, Hm. cbn [Nat.eqb orb negb map default].
  by rewrite map_default_Some.
Qed.

Lemma view_back {A} (t : tensor A) (pre : list nat) :
  prod_list pre <> 0 -> numel t mod prod_list pre = 0 ->
  torch.view t (map Some pre ++ [None]) =
  Ok (Tensor (pre ++ [numel t / prod_list pre]) (data t)).
Proof.
  intros Hk Hm. unfold torch.view.
  rewrite filter_app, filter_None_fmap_Some.
  rewrite filter_cons_True by done. rewrite filter_nil. simpl length. cbv iota.
  rewrite omap_app, omap_id_fmap_Some. simpl omap. rewrite app_nil_r.
  apply Nat.eqb_neq in Hk. rewrite Hk, Hm. cbn [Nat.eqb orb negb].
  rewrite map_app, map_default_Some. done.
Qed.

Lemma argmax_from_lt (l : list Q) (best_i : nat) (best : Q) (i : nat) :
  best_i < i -> torch.argmax_from best_i best i l < i + length l.
Proof.
  revert best_i best i. induction l as [|x l IH]; intros bi b i Hlt; simpl.
  - lia.
  - destruct (Qle_bool x b).
    + specialize (IH bi b (S i)). lia.
    + specialize (IH i x (S i)). lia.
Qed.

Lemma argmax_lt (l : list Q) : 0 < length l -> torch.argmax l < length l.
Proof.
  destruct l as [|x l]; simpl; [lia|]. intros _.
  pose proof (argmax_from_lt l 0 x 1). lia.
Qed.

Lemma softmax_max1_matrix (sm : list Q -> list Q) (t : tensor Q) (n d : nat) :
  (forall l, length (sm l) = length l) ->
  shape t = [n; d] -> 0 < d ->
  exists idx, torch.softmax_max1 sm t = Ok (Tensor [n] idx) /\
    length idx = n /\ Forall (fun k => k < d) idx.
Proof.
  intros Hsm Ht Hd. unfold torch.softmax_max1. rewrite Ht.
  destruct (Nat.eqb_spec d 0) as [|_]; [lia|].
  eexists. split; [reflexivity|]. split.
  - rewrite (bind_length_const _ 1), length_seq; [lia|].
    intros i. by rewrite (bind_length_const _ 1), length_seq.
  - apply Forall_bind, Forall_forall. intros i _.
    apply Forall_bind, Forall_forall. intros j _.
    apply Forall_singleton.
    match goal with |- torch.argmax ?l < _ =>
      assert (length l = d) as Hl end.
    { rewrite Hsm, (bind_length_const _ 1), length_seq; [lia|done]. }
    pose proof (argmax_lt _ ltac:(rewrite Hl; exact Hd)). lia.
Qed.

Lemma one_hot_row_length (width k : nat) : length (one_hot_row width k) = width.
Proof. unfold one_hot_row. by rewrite length_insert, length_replicate. Qed.

Lemma index_put_loop_one_hot (rows cols : nat) (idx : list nat) :
  forall (s : nat) (done_ : list Q),
    length done_ = s * cols -> s + length idx <= rows ->
    Forall (fun k => k < cols) idx ->
    torch.index_put_loop rows cols (zip (seq s (length idx)) idx) 1%Q
      (done_ ++ replicate (length idx * cols) 0%Q)
    = Ok (done_ ++ concat (map (one_hot_row cols) idx)).
Proof.
  induction idx as [|k idx IH]; intros s dn Hd Hs Hk.
  - done.
  - inversion Hk as [|? ? Hk1 Hk2]; subst. simpl length in *.
    cbn [seq zip zip_with torch.index_put_loop].
    destruct (Nat.ltb_spec s rows) as [_|]; [|lia].
    destruct (Nat.ltb_spec k cols) as [_|]; [|lia].
    cbn [andb].
    replace (replicate (S (length idx) * cols) 0%Q)
      with (replicate cols 0%Q ++ replicate (length idx * cols) 0%Q)
      by (rewrite <- replicate_add; f_equal; lia).
    rewrite <- Hd, insert_app_r, insert_app_l
      by (rewrite length_replicate; lia).
    change (<[k:=1%Q]> (replicate cols 0%Q)) with (one_hot_row cols k).
    rewrite app_assoc, (IH (S s)); try done.
    + cbn [map concat]. by rewrite <- app_assoc.
    + rewrite length_app, one_hot_row_length. lia.
    + lia.
Qed.

Lemma index_put_range_one_hot (n cols : nat) (idx : list nat) :
  length idx = n -> Forall (fun k => k < cols) idx ->
  torch.index_put_range (torch.zeros [n; cols]) n (Tensor [n] idx) 1%Q =
  Ok (Tensor [n; cols] (concat (map (one_hot_row cols) idx))).
Proof.
  intros Hn Hk. unfold torch.index_put_range. cbn [shape torch.zeros data].
  rewrite bool_decide_eq_true_2 by done.
  replace (prod_list [n; cols]) with (length idx * cols)
    by (simpl; lia).
  rewrite <- Hn.
  pose proof (index_put_loop_one_hot (length idx) cols idx 0 [] eq_refl
                ltac:(lia) Hk) as E.
  cbn [app] in E. by rewrite E.
Qed.

Lemma drop_S_middle {A} (pre post : list A) (k : A) :
  drop (S (length pre)) (pre ++ k :: post) = post.
Proof.
  rewrite cons_middle, app_assoc. apply drop_app_length'.
  rewrite length_app. simpl. lia.
Qed.

Lemma nth_middle_nat (pre post : list nat) (k : nat) :
  nth (length pre) (pre ++ k :: post) 0 = k.
Proof. induction pre as [|x pre IH]; [done|exact IH]. Qed.

Lemma cat_compatible_same {A} (t0 t : tensor A) (pre post : list nat)
  (k0 k : nat) :
  shape t0 = pre ++ k0 :: post -> shape t = pre ++ k :: post ->
  torch.cat_compatible (length pre) t0 t = true.
Proof.
  intros H0 Ht. unfold torch.cat_compatible. rewrite H0, Ht.
  rewrite !take_app_length, !drop_S_middle.
  rewrite !bool_decide_eq_true_2 by done.
  rewrite length_app. simpl.
  destruct (Nat.ltb_spec (length pre) (length pre + S (length post)));
    [done|lia].
Qed.

Lemma cat2_shape {A} (t1 t2 : tensor A) (pre post : list nat) (k1 k2 : nat) :
  shape t1 = pre ++ k1 :: post -> shape t2 = pre ++ k2 :: post ->
  exists t, torch.cat [t1; t2] (length pre) = Ok t /\
    shape t = pre ++ (k1 + k2) :: post.
Proof.
  intros H1 H2. unfold torch.cat. cbn [forallb].
  rewrite (cat_compatible_same t1 t1 pre post k1 k1 H1 H1).
  rewrite (cat_compatible_same t1 t2 pre post k1 k2 H1 H2).
  cbn [andb]. eexists. split; [reflexivity|]. cbn [shape map].
  unfold torch.dim_size. rewrite H1, H2, take_app_length, drop_S_middle.
  rewrite !nth_middle_nat. simpl. do 2 f_equal. lia.
Qed.

Lemma cat0_list {A} (ts : list (tensor A)) (rest : list nat) :
  ts <> [] -> Forall (fun t => shape t = 1 :: rest) ts ->
  exists t, torch.cat ts 0 = Ok t /\
    shape t = length ts :: rest /\
    data t = ts ≫= (fun t => take (prod_list rest) (data t)).
Proof.
  intros Hne Hall. unfold torch.cat. destruct ts as [|t0 ts]; [done|].
  assert (shape t0 = 1 :: rest) as H0 by (by inversion Hall).
  assert (forallb (torch.cat_compatible 0 t0) (t0 :: ts) = true) as ->.
  { apply forallb_forall. intros t Ht. apply list_elem_of_In in Ht.
    rewrite Forall_forall in Hall. specialize (Hall t Ht).
    exact (cat_compatible_same t0 t [] rest 1 1 H0 Hall). }
  eexists. split; [reflexivity|]. cbn [shape data]. rewrite H0.
  cbn [take drop app]. split.
  - f_equal. rewrite (sum_list_fmap_same 1); [lia|].
    eapply Forall_impl; [exact Hall|]. intros t Ht.
    unfold torch.dim_size. by rewrite Ht.
  - change (seq 0 (prod_list [])) with [0]. rewrite bind_singleton.
    apply Forall_bind_ext. eapply Forall_impl; [exact Hall|].
    intros t Ht. cbn beta. unfold torch.dim_size. rewrite Ht. simpl.
    by rewrite Nat.add_0_r.
Qed.

Lemma to_pixel_lookup (target : nat) :
  target < Agent.num_pixels ->
  exists p, Agent.to_pixel !! target = Some p /\ p ∈ Agent.pixels.
Proof.
  unfold Agent.num_pixels. simpl length. intros Ht.
  do 7 (destruct target as [|target];
        [eexists; split; [vm_compute; reflexivity | repeat constructor]|]).
  lia.
Qed.

Lemma mapM_decode_ok (targets : list nat) :
  Forall (fun k => k < Agent.num_pixels) targets ->
  exists pix,
    mapM (fun target => as_floats <$> getitem Agent.to_pixel target) targets
      = Ok (map as_floats pix) /\
    length pix = length targets /\ Forall (fun p => p ∈ Agent.pixels) pix.
Proof.
  induction 1 as [|k targets Hk _ (pix & E & Hlen & Hpix)].
  - by exists [].
  - destruct (to_pixel_lookup k Hk) as (p & Hp & Hin).
    exists (p :: pix). rewrite mapM_result_cons, E. unfold getitem.
    rewrite Hp. split; [done|]. split; [simpl; by rewrite Hlen|].
    by constructor.
Qed.

Lemma as_floats_length (p : Z * Z * Z) : length (as_floats p) = 3.
Proof. done. Qed.

Lemma concat_length_const {A} (ls : list (list A)) (k : nat) :
  Forall (fun l => length l = k) ls -> length (concat ls) = length ls * k.
Proof.
  induction 1 as [|l ls Hl _ IH]; [done|].
  simpl. rewrite length_app, IH, Hl. lia.
Qed.

(** The decoder on categories in range: the rows of the result are palette
    entries. *)
Lemma target_to_pix_ok (targets : list nat) :
  Forall (fun k => k < Agent.num_pixels) targets ->
  exists pix,
    Agent.target_to_pix targets = Ok (np.array_of_rows3 (map as_floats pix)) /\
    length pix = length targets /\ Forall (fun p => p ∈ Agent.pixels) pix.
Proof.
  intros Ht. destruct (mapM_decode_ok targets Ht) as (pix & E & Hlen & Hpix).
  exists pix. unfold Agent.target_to_pix. rewrite E. done.
Qed.

Lemma array_of_rows3_numel (pix : list (Z * Z * Z)) :
  numel (np.array_of_rows3 (map as_floats pix)) = length pix * 3 /\
  data (np.array_of_rows3 (map as_floats pix)) = concat (map as_floats pix).
Proof.
  destruct pix as [|p pix]; [done|]. unfold np.array_of_rows3, numel.
  rewrite map_cons. cbn [shape data].
  change (length (as_floats p :: map as_floats pix))
    with (S (length (map as_floats pix))).
  rewrite length_map. split; [|done]. simpl. lia.
Qed.

(** ** Layers and variables *)

Lemma var_op_Ok {A B} (f : tensor A -> result (tensor B)) (v : var A)
  (t : tensor B) :
  f (var_data v) = Ok t ->
  exists v', var_op f v = Ok v' /\ var_data v' = t.
Proof. intros E. unfold var_op. rewrite E. by eexists. Qed.

Lemma var_module_Ok {A B} (m : module_id) (f : tensor A -> result (tensor B))
  (v : var A) (t : tensor B) :
  f (var_data v) = Ok t ->
  exists v', var_module m f v = Ok v' /\ var_data v' = t.
Proof. intros E. unfold var_module. rewrite E. by eexists. Qed.

Lemma var_cat_Ok {A} (v1 v2 : var A) (pre post : list nat) (k1 k2 : nat) :
  shape (var_data v1) = pre ++ k1 :: post ->
  shape (var_data v2) = pre ++ k2 :: post ->
  exists v, var_cat v1 v2 (length pre) = Ok v /\
    shape (var_data v) = pre ++ (k1 + k2) :: post.
Proof.
  intros H1 H2. destruct (cat2_shape _ _ pre post k1 k2 H1 H2) as (t & E & Ht).
  unfold var_cat. rewrite E. by eexists.
Qed.

Lemma features_forward_shape (owner : module_id)
  (conv1 conv2 : tensor Q -> list Q) (v : var Q) (n h w : nat) :
  5 <= h -> 5 <= w -> shape (var_data v) = [n; 3; h; w] ->
  exists features,
    make_features [3; h; w] conv1 conv2 = Ok features /\
    exists v', nn.Sequential_forward owner features v = Ok v' /\
      shape (var_data v') = [n; 16; conv_out h; conv_out w].
Proof.
  intros Hh Hw Hv. eexists. split; [reflexivity|].
  cbn [nn.Sequential_forward nn.layer_forward].
  destruct (var_module_Ok owner (nn.Conv2d_forward (nn.MkConv2d 3 16 3 1 conv1))
              v (Tensor [n; 16; h - 3 + 1; w - 3 + 1]
                   (conv1 (var_data v)))) as (v1 & E1 & H1).
  { unfold nn.Conv2d_forward. rewrite Hv. cbn [nn.in_channels nn.kernel_size
      nn.stride nn.out_channels nn.conv_arith].
    change (3 =? 3) with true. change (0 <? 1) with true.
    destruct (Nat.leb_spec 3 h); [|lia]. destruct (Nat.leb_spec 3 w); [|lia].
    cbn [andb]. by rewrite !Nat.div_1_r. }
  rewrite E1. cbn [mbind result_bind].
  destruct (var_op_Ok nn.ReLU_forward v1 _ eq_refl) as (v2 & E2 & H2).
  rewrite E2. cbn [mbind result_bind].
  destruct (var_module_Ok owner (nn.Conv2d_forward (nn.MkConv2d 16 16 3 2 conv2))
              v2 (Tensor [n; 16; conv_out h; conv_out w]
                    (conv2 (var_data v2)))) as (v3 & E3 & H3).
  { unfold nn.Conv2d_forward. rewrite H2. cbn [shape]. rewrite H1.
    cbn [shape nn.in_channels nn.kernel_size
      nn.stride nn.out_channels nn.conv_arith].
    change (16 =? 16) with true. change (0 <? 2) with true.
    destruct (Nat.leb_spec 3 (h - 3 + 1)); [|lia].
    destruct (Nat.leb_spec 3 (w - 3 + 1)); [|lia]. done. }
  rewrite E3. cbn [mbind result_bind].
  destruct (var_op_Ok nn.ReLU_forward v3 _ eq_refl) as (v4 & E4 & H4).
  rewrite E4. cbn [mbind result_bind]. exists v4. split; [done|].
  rewrite H4. cbn [shape]. by rewrite H3.
Qed.

Lemma numel_4 {A} (t : tensor A) (a b c d : nat) :
  shape t = [a; b; c; d] -> numel t = a * (b * (c * d)).
Proof. intros E. unfold numel. rewrite E. simpl. lia. Qed.

Lemma feature_size_ok (conv1 conv2 : tensor Q -> list Q) (h w : nat) :
  5 <= h -> 5 <= w ->
  exists features,
    make_features [3; h; w] conv1 conv2 = Ok features /\
    feature_size features [3; h; w] = Ok (features_width h w).
Proof.
  intros Hh Hw.
  destruct (features_forward_shape I2AId conv1 conv2
              (Variable_ (torch.zeros [1; 3; h; w]) false) 1 h w Hh Hw eq_refl)
    as (features & Hf & v & Hv & Hs).
  exists features. split; [done|]. unfold feature_size. rewrite Hv.
  cbn [mbind result_bind].
  destruct (var_op_Ok (fun t => torch.view t [Some 1; None]) v
              (Tensor [1; features_width h w] (data (var_data v))))
    as (v' & E & Hd).
  { assert (numel (var_data v) = features_width h w * prod_list [1]) as Hnum.
    { rewrite (numel_4 _ _ _ _ _ Hs). unfold features_width. simpl. lia. }
    rewrite (view_back _ [1]).
    - cbn [app]. by rewrite Hnum, Nat.div_mul.
    - done.
    - rewrite Hnum. apply Nat.Div0.mod_mul. }
  rewrite E. cbn [mbind result_bind]. unfold torch.size. by rewrite Hd.
Qed.


(** ** The rollout encoder *)

Lemma RolloutEncoder_forward_shape (θ : I2A_weights)
  (T n h w R hidden : nat) (state reward : var Q) :
  5 <= h -> 5 <= w -> 0 < T -> 0 < n ->
  shape (var_data state) = [T; n; 3; h; w] ->
  shape (var_data reward) = [T; n; R] ->
  exists enc,
    RolloutEncoder_init [3; h; w] R hidden θ = Ok enc /\
    exists hid, RolloutEncoder_forward enc state reward = Ok hid /\
      shape (var_data hid) = [n; hidden].
Proof.
  intros Hh Hw HT Hn Hs Hr. unfold RolloutEncoder_init.
  destruct (feature_size_ok (w_enc_features1 θ) (w_enc_features2 θ) h w Hh Hw)
    as (features & Hf & Hfs).
  rewrite Hf. cbn [mbind result_bind]. rewrite Hfs. cbn [mbind result_bind].
  eexists. split; [reflexivity|]. unfold RolloutEncoder_forward.
  cbn [enc_in_shape enc_features enc_gru]. unfold torch.size. rewrite Hs.
  cbn [lookup list_lookup mbind result_bind].
  assert (numel (var_data state) = T * n * prod_list [3; h; w]) as Hnum.
  { unfold numel. rewrite Hs. simpl. lia. }
  destruct (var_op_Ok (fun t => torch.view t (None :: map Some [3; h; w])) state
              (Tensor [T * n; 3; h; w] (data (var_data state))))
    as (v1 & E1 & H1).
  { rewrite view_front.
    - by rewrite Hnum, Nat.div_mul by (simpl; lia).
    - simpl; lia.
    - rewrite Hnum. apply Nat.Div0.mod_mul. }
  rewrite E1. cbn [mbind result_bind].
  destruct (features_forward_shape I2AId (w_enc_features1 θ)
              (w_enc_features2 θ) v1 (T * n) h w Hh Hw
              ltac:(by rewrite H1)) as (features' & Hf' & v2 & E2 & H2).
  rewrite Hf in Hf'. injection Hf' as <-. rewrite E2.
  cbn [mbind result_bind].
  destruct (var_op_Ok (fun t => torch.view t [Some T; Some n; None]) v2
              (Tensor [T; n; features_width h w] (data (var_data v2))))
    as (v3 & E3 & H3).
  { assert (numel (var_data v2) = features_width h w * prod_list [T; n])
      as Hnum2.
    { rewrite (numel_4 _ _ _ _ _ H2). unfold features_width. simpl. lia. }
    assert (prod_list [T; n] <> 0) as Hk by (simpl; nia).
    rewrite (view_back _ [T; n]).
    - cbn [app]. by rewrite Hnum2, Nat.div_mul.
    - done.
    - rewrite Hnum2. apply Nat.Div0.mod_mul. }
  rewrite E3. cbn [mbind result_bind].
  destruct (var_cat_Ok v3 reward [T; n] [] (features_width h w) R
              ltac:(by rewrite H3) Hr) as (v4 & E4 & H4).
  cbn [length] in E4. rewrite E4. cbn [mbind result_bind].
  destruct (var_module_Ok I2AId
              (fun t => snd <$> nn.GRU_forward
                 (nn.MkGRU (features_width h w + R) hidden
                    (w_gru_output θ) (w_gru_hidden θ)) t) v4
              (Tensor [1; n; hidden] (w_gru_hidden θ (var_data v4))))
    as (v5 & E5 & H5).
  { unfold nn.GRU_forward. rewrite H4. cbn [app nn.input_size nn.hidden_size
      nn.gru_hidden_arith nn.gru_output_arith].
    rewrite Nat.eqb_refl. destruct (Nat.ltb_spec 0 T); [|lia]. done. }
  rewrite E5. cbn [mbind result_bind].
  destruct (var_op_Ok torch.squeeze0 v5 (Tensor [n; hidden] (data (var_data v5))))
    as (v6 & E6 & H6).
  { unfold torch.squeeze0. by rewrite H5. }
  exists v6. by rewrite E6, H6.
Qed.

(** ** The history of variables *)

Lemma var_op_deps {A B} (f : tensor A -> result (tensor B)) (v : var A)
  (v' : var B) (m : module_id) :
  var_op f v = Ok v' -> m ∈ grad_deps v' -> m ∈ grad_deps v.
Proof.
  unfold var_op. destruct (f (var_data v)) as [t|]; [|done].
  cbn [mbind result_bind mret result_ret]. intros [= <-]. cbn [grad_deps].
  destruct (volatile v); [by intros ?%elem_of_nil | done].
Qed.

Lemma var_module_deps {A B} (o : module_id)
  (f : tensor A -> result (tensor B)) (v : var A) (v' : var B)
  (m : module_id) :
  var_module o f v = Ok v' -> m ∈ grad_deps v' -> m = o \/ m ∈ grad_deps v.
Proof.
  unfold var_module. destruct (f (var_data v)) as [t|]; [|done].
  cbn [mbind result_bind mret result_ret]. intros [= <-]. cbn [grad_deps].
  destruct (volatile v); [by intros ?%elem_of_nil |].
  intros [->|H]%elem_of_cons; auto.
Qed.

Lemma var_cat_deps {A} (v1 v2 v : var A) (dim : nat) (m : module_id) :
  var_cat v1 v2 dim = Ok v -> m ∈ grad_deps v ->
  m ∈ grad_deps v1 \/ m ∈ grad_deps v2.
Proof.
  unfold var_cat. destruct (torch.cat _ _) as [t|]; [|done].
  cbn [mbind result_bind mret result_ret]. intros [= <-]. cbn [grad_deps].
  destruct (volatile v1 || volatile v2); [by intros ?%elem_of_nil |].
  by intros ?%elem_of_app.
Qed.

Lemma Sequential_forward_deps (o : module_id) (layers : list nn.layer) :
  forall (v v' : var Q) (m : module_id),
    nn.Sequential_forward o layers v = Ok v' -> m ∈ grad_deps v' ->
    m = o \/ m ∈ grad_deps v.
Proof.
  induction layers as [|l layers IH]; intros v v' m.
  - cbn [nn.Sequential_forward]. intros [= <-]. auto.
  - cbn [nn.Sequential_forward].
    destruct (nn.layer_forward o l v) as [v1|] eqn:E1; [|done].
    cbn [mbind result_bind]. intros E Hm.
    destruct (IH v1 v' m E Hm) as [->|H1]; [by left|].
    destruct l; cbn [nn.layer_forward] in E1.
    + exact (var_module_deps o _ v v1 m E1 H1).
    + exact (var_module_deps o _ v v1 m E1 H1).
    + right. exact (var_op_deps _ v v1 m E1 H1).
Qed.

Lemma RolloutEncoder_forward_deps (enc : RolloutEncoder) (state reward : var Q)
  (hid : var Q) (m : module_id) :
  RolloutEncoder_forward enc state reward = Ok hid -> m ∈ grad_deps hid ->
  m = I2AId \/ m ∈ grad_deps state \/ m ∈ grad_deps reward.
Proof.
  unfold RolloutEncoder_forward.
  destruct (torch.size (var_data state) 0) as [T|]; [|done].
  cbn [mbind result_bind].
  destruct (torch.size (var_data state) 1) as [n|]; [|done].
  cbn [mbind result_bind].
  destruct (var_op _ state) as [v1|] eqn:E1; [|done]. cbn [mbind result_bind].
  destruct (nn.Sequential_forward _ _ v1) as [v2|] eqn:E2; [|done].
  cbn [mbind result_bind].
  destruct (var_op _ v2) as [v3|] eqn:E3; [|done]. cbn [mbind result_bind].
  destruct (var_cat v3 reward 2) as [v4|] eqn:E4; [|done].
  cbn [mbind result_bind].
  destruct (var_module _ _ v4) as [v5|] eqn:E5; [|done].
  cbn [mbind result_bind]. intros E6 Hm.
  pose proof (var_op_deps _ _ _ m E6 Hm) as H5.
  destruct (var_module_deps _ _ _ _ m E5 H5) as [->|H4]; [by left|].
  destruct (var_cat_deps _ _ _ _ m E4 H4) as [H3|Hr]; [|by right; right].
  pose proof (var_op_deps _ _ _ m E3 H3) as H2.
  destruct (Sequential_forward_deps _ _ _ _ m E2 H2) as [->|H1]; [by left|].
  right; left. exact (var_op_deps _ _ _ m E1 H1).
Qed.

(** ** The monad of calls *)

Section Core.

Context `{C : Collaborators}.

Lemma bind_lift_Ok {A B} (r : result A) (a : A) (k : A -> M B) (w : world) :
  r = Ok a -> (lift r ≫= k) w = k a w.
Proof. intros ->. reflexivity. Qed.

Lemma bind_lift_Raise {A B} (r : result A) (e : exn) (k : A -> M B)
  (w : world) :
  r = Raise e -> (lift r ≫= k) w = (Raise e, w).
Proof. intros ->. reflexivity. Qed.

Lemma bind_Ok {A B} (m : M A) (a : A) (k : A -> M B) (w w' : world) :
  m w = (Ok a, w') -> (m ≫= k) w = k a w'.
Proof. intros E. unfold mbind, M_bind. by rewrite E. Qed.


Lemma var_data_var_op {A B} (f : tensor A -> result (tensor B)) (v : var A)
  (t : tensor B) :
  f (var_data v) = Ok t -> var_data <$> var_op f v = Ok t.
Proof. intros E. unfold var_op. by rewrite E. Qed.

Lemma numpy_scalars_vector (k : nat) (d : list nat) :
  numpy_scalars (Tensor [k] d) = Ok d.
Proof. by destruct k. Qed.

(** ** One imagined step *)

Lemma rollout_step_ok (self : ImaginationCore) (n h w : nat)
  (state : tensor Q) (action : tensor nat) (σ : world) :
  ic_in_shape self = [3; h; w] ->
  env_model_contract self -> softmax_contract ->
  0 < ic_num_rewards self ->
  shape state = [n; 3; h; w] ->
  exists s r a σ',
    rollout_step self n state action σ = (Ok (s, r, a), σ') /\
    decoded_state n h w s /\ one_hot_rewards n (ic_num_rewards self) r.
Proof.
  intros Hin Henv Hsm Hrew Hst. unfold rollout_step.
  assert (shape (onehot_action_plane self n action)
          = [n; ic_num_actions self; h; w]) as Hplane.
  { unfold onehot_action_plane. by rewrite Hin. }
  destruct (cat2_shape state (onehot_action_plane self n action) [n] [h; w]
              3 (ic_num_actions self) Hst Hplane) as (inputs & Hcat & Hinputs).
  cbn [length app] in Hcat, Hinputs.
  rewrite (bind_lift_Ok _ inputs) by exact Hcat.
  destruct (Henv (env_params σ) inputs n 3 h w Hin Hinputs)
    as (image & reward & Hfwd & Himage & Hreward).
  erewrite bind_Ok; cycle 1.
  { unfold env_model. cbn [Variable_ var_data]. rewrite Hfwd. reflexivity. }
  cbn beta iota zeta.
  destruct (softmax_max1_matrix softmax image (n * h * w) Agent.num_pixels
              Hsm Himage ltac:(unfold Agent.num_pixels; simpl; lia))
    as (targets & Htargets & Hlen & Hrange).
  rewrite (bind_lift_Ok _ (Tensor [n * h * w] targets))
    by (by apply var_data_var_op).
  destruct (softmax_max1_matrix softmax reward n (ic_num_rewards self)
              Hsm Hreward Hrew) as (idx & Hidx & Hilen & Hirange).
  rewrite (bind_lift_Ok _ (Tensor [n] idx)) by (by apply var_data_var_op).
  destruct (target_to_pix_ok targets Hrange) as (pix & Hdec & Hplen & Hpix).
  rewrite (bind_lift_Ok _ (np.array_of_rows3 (map as_floats pix)))
    by (rewrite numpy_scalars_vector; exact Hdec).
  destruct (array_of_rows3_numel pix) as (Hnumel & Hdata).
  rewrite Hin.
  rewrite (bind_lift_Ok _ (Tensor [n; 3; h; w]
                             (data (np.array_of_rows3 (map as_floats pix))))).
  2:{ apply (view_exact _ [n; 3; h; w]). rewrite Hnumel, Hplen, Hlen.
      simpl. lia. }
  rewrite (bind_lift_Ok _ _ _ _ (index_put_range_one_hot n _ idx Hilen Hirange)).
  unfold distil_policy_act. unfold mbind at 1. unfold M_bind.
  destruct (policy_act _ _ _) as [a g] eqn:Hact.
  eexists _, _, _, _. split; [reflexivity|]. split.
  - split; [done|]. exists pix. cbn [data]. rewrite Hdata.
    repeat split; [lia | done].
  - split; [done|]. by exists idx.
Qed.

(** ** The loop *)

Lemma rollout_loop_ok (self : ImaginationCore) (n h w : nat) (steps : nat) :
  ic_in_shape self = [3; h; w] ->
  env_model_contract self -> softmax_contract ->
  0 < ic_num_rewards self ->
  forall (state : tensor Q) (action : tensor nat)
    (rs rr : list (tensor Q)) (σ : world),
    shape state = [n; 3; h; w] ->
    Forall (fun t => exists s, t = torch.unsqueeze0 s /\ decoded_state n h w s)
      rs ->
    Forall (fun t => exists r, t = torch.unsqueeze0 r /\
                      one_hot_rewards n (ic_num_rewards self) r) rr ->
    exists rs' rr' σ',
      rollout_loop self n steps state action rs rr σ = (Ok (rs', rr'), σ') /\
      length rs' = length rs + steps /\ length rr' = length rr + steps /\
      Forall (fun t => exists s, t = torch.unsqueeze0 s /\
                        decoded_state n h w s) rs' /\
      Forall (fun t => exists r, t = torch.unsqueeze0 r /\
                        one_hot_rewards n (ic_num_rewards self) r) rr'.
Proof.
  intros Hin Henv Hsm Hrew.
  induction steps as [|steps IH]; intros state action rs rr σ Hst Hrs Hrr.
  - exists rs, rr, σ. cbn [rollout_loop]. repeat split; [lia..|done|done].
  - cbn [rollout_loop].
    destruct (rollout_step_ok self n h w state action σ Hin Henv Hsm Hrew Hst)
      as (s & r & a & σ1 & Hstep & Hs & Hr).
    rewrite (bind_Ok _ _ _ _ _ Hstep). cbn beta iota zeta.
    destruct (IH s a (rs ++ [torch.unsqueeze0 s]) (rr ++ [torch.unsqueeze0 r])
                σ1) as (rs' & rr' & σ' & E & Hl1 & Hl2 & H1 & H2).
    + apply Hs.
    + apply Forall_app. split; [done|]. apply Forall_singleton. by exists s.
    + apply Forall_app. split; [done|]. apply Forall_singleton. by exists r.
    + exists rs', rr', σ'. rewrite length_app in Hl1, Hl2. simpl in Hl1, Hl2.
      repeat split; [done|lia|lia|done|done].
Qed.

Lemma cat0_decoded (rs : list (tensor Q)) (n h w : nat) :
  rs <> [] ->
  Forall (fun t => exists s, t = torch.unsqueeze0 s /\ decoded_state n h w s)
    rs ->
  exists t, torch.cat rs 0 = Ok t /\
    shape t = [length rs; n; 3; h; w] /\
    exists pix, length pix = length rs * (n * h * w) /\
      Forall (fun p => p ∈ Agent.pixels) pix /\
      data t = concat (map as_floats pix).
Proof.
  intros Hne Hall.
  destruct (cat0_list rs [n; 3; h; w] Hne) as (t & E & Hsh & Hdata).
  { eapply Forall_impl; [exact Hall|]. intros ? (s & -> & (Hs & _)).
    unfold torch.unsqueeze0. cbn [shape]. by rewrite Hs. }
  exists t. split; [done|]. split; [done|]. rewrite Hdata. clear E Hsh Hdata Hne.
  induction Hall as [|t0 rs (s & -> & (Hs & pix0 & Hl0 & Hp0 & Hd0)) _
                       (pix & Hl & Hp & Hd)].
  - by exists [].
  - exists (pix0 ++ pix). rewrite length_app, Hl0, Hl. split; [simpl; lia|].
    split; [by apply Forall_app|].
    rewrite bind_cons, Hd, map_app, concat_app. f_equal.
    unfold torch.unsqueeze0. cbn [data]. rewrite Hd0. apply take_ge.
    rewrite (concat_length_const _ 3), length_map, Hl0; [simpl; lia|].
    apply Forall_forall. intros l Hl'. apply list_elem_of_fmap in Hl'.
    by destruct Hl' as (p & -> & _).
Qed.

Lemma cat0_one_hot (rr : list (tensor Q)) (n width : nat) :
  rr <> [] ->
  Forall (fun t => exists r, t = torch.unsqueeze0 r /\
                    one_hot_rewards n width r) rr ->
  exists t, torch.cat rr 0 = Ok t /\
    shape t = [length rr; n; width] /\
    exists idx, length idx = length rr * n /\
      Forall (fun k => k < width) idx /\
      data t = concat (map (one_hot_row width) idx).
Proof.
  intros Hne Hall.
  destruct (cat0_list rr [n; width] Hne) as (t & E & Hsh & Hdata).
  { eapply Forall_impl; [exact Hall|]. intros ? (r & -> & (Hr & _)).
    unfold torch.unsqueeze0. cbn [shape]. by rewrite Hr. }
  exists t. split; [done|]. split; [done|]. rewrite Hdata. clear E Hsh Hdata Hne.
  induction Hall as [|t0 rr (r & -> & (Hr & idx0 & Hl0 & Hp0 & Hd0)) _
                       (idx & Hl & Hp & Hd)].
  - by exists [].
  - exists (idx0 ++ idx). rewrite length_app, Hl0, Hl. split; [simpl; lia|].
    split; [by apply Forall_app|].
    rewrite bind_cons, Hd, map_app, concat_app. f_equal.
    unfold torch.unsqueeze0. cbn [data]. rewrite Hd0. apply take_ge.
    rewrite (concat_length_const _ width), length_map, Hl0; [simpl; lia|].
    apply Forall_forall. intros l Hl'. apply list_elem_of_fmap in Hl'.
    destruct Hl' as (p & -> & _). apply one_hot_row_length.
Qed.

(** ** The whole call *)

Lemma rollout_batch_full (self : ImaginationCore) (B h w : nat)
  (state : tensor Q) (σ : world) :
  ic_full_rollout self = true -> ic_in_shape self = [3; h; w] ->
  0 < h -> 0 < w -> shape state = [B; 3; h; w] ->
  exists st a,
    rollout_batch self state B σ = (Ok (st, a, B * ic_num_actions self), σ) /\
    shape st = [B * ic_num_actions self; 3; h; w].
Proof.
  intros Hfull Hin Hh Hw Hst. unfold rollout_batch. rewrite Hfull, Hin.
  unfold torch.repeat0_5, torch.unsqueeze0. cbn [shape data]. rewrite Hst.
  cbn [length Nat.leb Nat.sub replicate app mbind result_bind].
  set (r := Tensor _ _).
  assert (numel r = B * ic_num_actions self * prod_list [3; h; w]) as Hnum.
  { unfold numel, r. simpl. lia. }
  assert (prod_list [3; h; w] <> 0) as Hk by (simpl; lia).
  rewrite (bind_lift_Ok _ _ _ _
             (view_front r [3; h; w] Hk
                ltac:(rewrite Hnum; apply Nat.Div0.mod_mul))).
  rewrite Hnum, Nat.div_mul by exact Hk.
  eexists _, _. split; reflexivity.
Qed.

Lemma ImaginationCore_call_ok (self : ImaginationCore) (B h w : nat)
  (state : tensor Q) (σ : world) :
  ic_full_rollout self = true -> ic_in_shape self = [3; h; w] ->
  0 < h -> 0 < w -> 0 < ic_num_rolouts self -> 0 < ic_num_rewards self ->
  env_model_contract self -> softmax_contract ->
  shape state = [B; 3; h; w] ->
  let n := B * ic_num_actions self in
  exists states rewards σ',
    ImaginationCore_call self state σ = (Ok (states, rewards), σ') /\
    shape states = [ic_num_rolouts self; n; 3; h; w] /\
    shape rewards = [ic_num_rolouts self; n; ic_num_rewards self] /\
    (exists pix, length pix = ic_num_rolouts self * (n * h * w) /\
       Forall (fun p => p ∈ Agent.pixels) pix /\
       data states = concat (map as_floats pix)) /\
    (exists idx, length idx = ic_num_rolouts self * n /\
       Forall (fun k => k < ic_num_rewards self) idx /\
       data rewards = concat (map (one_hot_row (ic_num_rewards self)) idx)).
Proof.
  intros Hfull Hin Hh Hw HT HR Henv Hsm Hst n. unfold ImaginationCore_call.
  rewrite (bind_lift_Ok _ B) by (unfold torch.size; by rewrite Hst).
  destruct (rollout_batch_full self B h w state σ Hfull Hin Hh Hw Hst)
    as (st & a & Hbatch & Hshape).
  rewrite (bind_Ok _ _ _ _ _ Hbatch). cbn beta iota zeta.
  destruct (rollout_loop_ok self n h w (ic_num_rolouts self) Hin Henv Hsm HR
              st a [] [] σ Hshape (Forall_nil_2 _) (Forall_nil_2 _))
    as (rs & rr & σ' & Hloop & Hl1 & Hl2 & Hrs & Hrr).
  fold n. rewrite (bind_Ok _ _ _ _ _ Hloop). cbn beta iota zeta.
  simpl in Hl1, Hl2.
  destruct (cat0_decoded rs n h w) as (states & E1 & Hs1 & Hpix);
    [destruct rs; simpl in *; [lia|done] | done |].
  destruct (cat0_one_hot rr n (ic_num_rewards self)) as (rewards & E2 & Hs2 & Hidx);
    [destruct rr; simpl in *; [lia|done] | done |].
  exists states, rewards, σ'. unfold lift. rewrite E1, E2.
  cbn [mbind result_bind mret result_ret].
  rewrite Hl1 in Hs1, Hpix. rewrite Hl2 in Hs2, Hidx. done.
Qed.

(** ** The agent *)


(** ** Independence from the generator and from the logs *)

Lemma rollout_step_agree (self : ImaginationCore) (n : nat) (state : tensor Q)
  (a1 a2 : tensor nat) (σ1 σ2 : world) :
  same_weights σ1 σ2 ->
  match rollout_step self n state a1 σ1, rollout_step self n state a2 σ2 with
  | (Ok (s1, r1, _), σ1'), (Ok (s2, r2, _), σ2') =>
      s1 = s2 /\ r1 = r2 /\ same_weights σ1' σ2'
  | (Raise e1, _), (Raise e2, _) => e1 = e2
  | _, _ => False
  end.
Proof.
  destruct σ1 as [e1 p1 g1 q1 o1], σ2 as [e2 p2 g2 q2 o2].
  intros [He Hp]. cbn in He, Hp. subst e2 p2.
  unfold rollout_step, onehot_action_plane.
  unfold mbind, M_bind, lift, env_model, distil_policy_act, mret, M_ret.
  destruct (torch.cat _ 1) as [inputs|]; [|done].
  cbn [Variable_ var_data volatile env_params policy_params rng env_queries
         stdout].
  destruct (env_forward _ _) as [[image reward]|]; [|done].
  destruct (var_data <$> var_op _ _) as [targets|]; [|done].
  destruct (var_data <$> var_op _ _) as [idx|]; [|done].
  destruct (result_bind _ _ _ _) as [decoded|]; [|done].
  destruct (torch.view _ _) as [imagined|]; [|done].
  destruct (torch.index_put_range _ _ _ _) as [onehot|]; [|done].
  cbn [env_params policy_params rng env_queries stdout].
  destruct (policy_act _ _ g1) as [act1 g1'].
  destruct (policy_act _ _ g2) as [act2 g2'].
  repeat split.
Qed.

Lemma rollout_loop_agree (self : ImaginationCore) (n steps : nat) :
  forall (state : tensor Q) (a1 a2 : tensor nat) (rs rr : list (tensor Q))
    (σ1 σ2 : world),
    same_weights σ1 σ2 ->
    fst (rollout_loop self n steps state a1 rs rr σ1) =
    fst (rollout_loop self n steps state a2 rs rr σ2).
Proof.
  induction steps as [|steps IH]; intros state a1 a2 rs rr σ1 σ2 Hw; [done|].
  cbn [rollout_loop]. unfold mbind, M_bind.
  pose proof (rollout_step_agree self n state a1 a2 σ1 σ2 Hw) as Hstep.
  destruct (rollout_step self n state a1 σ1) as [[[[s1 r1] x1]|e1] σ1'],
    (rollout_step self n state a2 σ2) as [[[[s2 r2] x2]|e2] σ2'];
    try done.
  - destruct Hstep as (-> & -> & Hw'). by apply IH.
  - by rewrite Hstep.
Qed.

Lemma rollout_batch_agree (self : ImaginationCore) (state : tensor Q)
  (B : nat) (σ1 σ2 : world) :
  same_weights σ1 σ2 ->
  match rollout_batch self state B σ1, rollout_batch self state B σ2 with
  | (Ok x1, σ1'), (Ok x2, σ2') => x1 = x2 /\ same_weights σ1' σ2'
  | (Raise e1, _), (Raise e2, _) => e1 = e2
  | _, _ => False
  end.
Proof.
  intros Hw. unfold rollout_batch. destruct (ic_full_rollout self).
  - unfold mbind, M_bind, lift, mret, M_ret.
    by destruct (result_bind _ _ _ _) as [st|].
  - unfold mbind, M_bind, print, distil_policy_act, raise.
    cbn [policy_params rng].
    by destruct (policy_act _ _ (rng σ1)), (policy_act _ _ (rng σ2)).
Qed.

Lemma bind_agree {A B} (m : M A) (k : A -> M B) (σ1 σ2 : world) :
  agree (m σ1) (m σ2) ->
  (forall x σ1' σ2', same_weights σ1' σ2' ->
     fst (k x σ1') = fst (k x σ2')) ->
  fst ((m ≫= k) σ1) = fst ((m ≫= k) σ2).
Proof.
  intros Hm Hk. unfold mbind, M_bind, agree in *.
  destruct (m σ1) as [[x1|e1] σ1'], (m σ2) as [[x2|e2] σ2']; try done.
  - destruct Hm as [-> Hw]. by apply Hk.
  - by rewrite Hm.
Qed.

Lemma lift_agree {A} (r : result A) (σ1 σ2 : world) :
  same_weights σ1 σ2 -> agree (lift r σ1) (lift r σ2).
Proof. intros Hw. unfold lift, agree. by destruct r. Qed.

Lemma ImaginationCore_call_agree (self : ImaginationCore) (state : tensor Q)
  (σ1 σ2 : world) :
  same_weights σ1 σ2 ->
  fst (ImaginationCore_call self state σ1) =
  fst (ImaginationCore_call self state σ2).
Proof.
  intros Hw. unfold ImaginationCore_call.
  apply bind_agree; [by apply lift_agree|]. clear σ1 σ2 Hw.
  intros B σ1 σ2 Hw. apply bind_agree.
  { exact (rollout_batch_agree self state B σ1 σ2 Hw). }
  clear σ1 σ2 Hw. intros [[st a] n] σ1 σ2 Hw.
  unfold mbind, M_bind.
  pose proof (rollout_loop_agree self n (ic_num_rolouts self) st a a
                [] [] σ1 σ2 Hw) as Hl.
  destruct (rollout_loop self n _ st a [] [] σ1) as [[[rs1 rr1]|e1] σ1'],
    (rollout_loop self n _ st a [] [] σ2) as [[[rs2 rr2]|e2] σ2'];
    cbn [fst] in Hl; try done.
  - by injection Hl as -> ->.
  - by injection Hl as ->.
Qed.

Lemma I2A_hidden_agree (net : I2A) (v : var Q) (σ1 σ2 : world) :
  same_weights σ1 σ2 ->
  fst (I2A_hidden net v σ1) = fst (I2A_hidden net v σ2).
Proof.
  intros Hw. unfold I2A_hidden.
  apply bind_agree; [by apply lift_agree|]. clear σ1 σ2 Hw.
  intros B σ1 σ2 Hw. unfold mbind, M_bind.
  pose proof (ImaginationCore_call_agree (i2a_imagination net) (var_data v)
                σ1 σ2 Hw) as Hc.
  destruct (ImaginationCore_call _ _ σ1) as [[[s1 r1]|e1] τ1],
    (ImaginationCore_call _ _ σ2) as [[[s2 r2]|e2] τ2]; cbn [fst] in Hc;
    try done.
  - by injection Hc as -> ->.
  - by injection Hc as ->.
Qed.

(** C5. The results of [ImaginationCore.__call__] and of [I2A.forward] are
    functions of the input, of the agent (which carries its own weights) and
    of the parameters of the environment model and of the distillation
    policy: two calls on the same input in surroundings that hold the same
    parameters return the same result, whatever the states of the random
    generator that the policy samples from, and whatever was queried or
    printed before. *)
Theorem imagination_deterministic (self : ImaginationCore) (net : I2A)
  (state : tensor Q) (v : var Q) (σ1 σ2 : world)
  (Hw : same_weights σ1 σ2) :
  fst (ImaginationCore_call self state σ1) =
    fst (ImaginationCore_call self state σ2) /\
  fst (I2A_forward net v σ1) = fst (I2A_forward net v σ2).
Proof.
  split; [by apply ImaginationCore_call_agree|].
  unfold I2A_forward, mbind, M_bind.
  pose proof (I2A_hidden_agree net v σ1 σ2 Hw) as Hh.
  destruct (I2A_hidden net v σ1) as [[h1|e1] τ1],
    (I2A_hidden net v σ2) as [[h2|e2] τ2]; cbn [fst] in Hh; try done.
  - by injection Hh as ->.
  - by injection Hh as ->.
Qed.

(** ** What a call does to its surroundings *)

Lemma frame_refl (σ : world) : frame σ σ.
Proof.
  repeat split. exists []. by rewrite app_nil_r.
Qed.

Lemma frame_trans (σ1 σ2 σ3 : world) : frame σ1 σ2 -> frame σ2 σ3 -> frame σ1 σ3.
Proof.
  intros (He1 & Hp1 & q1 & Hq1 & Hv1) (He2 & Hp2 & q2 & Hq2 & Hv2).
  split; [congruence|]. split; [congruence|].
  exists (q1 ++ q2). rewrite Hq2, Hq1, app_assoc. split; [done|].
  by apply Forall_app.
Qed.

Lemma bind_frame {A B} (m : M A) (k : A -> M B) (σ : world) :
  frame σ (snd (m σ)) -> (forall x σ', frame σ' (snd (k x σ'))) ->
  frame σ (snd ((m ≫= k) σ)).
Proof.
  intros Hm Hk. unfold mbind, M_bind.
  destruct (m σ) as [[x|e] σ1]; cbn [snd] in *; [|done].
  eapply frame_trans; [exact Hm | apply Hk].
Qed.

Lemma lift_frame {A} (r : result A) (σ : world) : frame σ (snd (lift r σ)).
Proof. apply frame_refl. Qed.

Lemma env_model_frame (t : tensor Q) (σ : world) :
  frame σ (snd (env_model (Variable_ t true) σ)).
Proof.
  unfold env_model. cbn [Variable_ var_data volatile].
  assert (frame σ (World (env_params σ) (policy_params σ) (rng σ)
                     (env_queries σ ++ [MkVar t true []]) (stdout σ))) as H.
  { repeat split. exists [MkVar t true []]. split; [done|].
    by apply Forall_singleton. }
  by destruct (env_forward _ _) as [[image reward]|].
Qed.

Lemma distil_policy_act_frame (v : var Q) (σ : world) :
  frame σ (snd (distil_policy_act v σ)).
Proof.
  unfold distil_policy_act. destruct (policy_act _ _ _) as [a g].
  repeat split. exists []. by rewrite app_nil_r.
Qed.

Lemma rollout_step_frame (self : ImaginationCore) (n : nat) (state : tensor Q)
  (action : tensor nat) (σ : world) :
  frame σ (snd (rollout_step self n state action σ)).
Proof.
  unfold rollout_step.
  apply bind_frame; [apply lift_frame|]. intros inputs σ1.
  apply bind_frame; [apply env_model_frame|]. intros [image reward] σ2.
  apply bind_frame; [apply lift_frame|]. intros targets σ3.
  apply bind_frame; [apply lift_frame|]. intros idx σ4.
  apply bind_frame; [apply lift_frame|]. intros decoded σ5.
  apply bind_frame; [apply lift_frame|]. intros imagined σ6.
  apply bind_frame; [apply lift_frame|]. intros onehot σ7.
  apply bind_frame; [apply distil_policy_act_frame|]. intros a σ8.
  apply frame_refl.
Qed.

Lemma rollout_loop_frame (self : ImaginationCore) (n steps : nat) :
  forall (state : tensor Q) (action : tensor nat) (rs rr : list (tensor Q))
    (σ : world),
    frame σ (snd (rollout_loop self n steps state action rs rr σ)).
Proof.
  induction steps as [|steps IH]; intros state action rs rr σ.
  - apply frame_refl.
  - cbn [rollout_loop]. apply bind_frame; [apply rollout_step_frame|].
    intros [[s r] a] σ1. apply IH.
Qed.

Lemma rollout_batch_frame (self : ImaginationCore) (state : tensor Q)
  (B : nat) (σ : world) :
  frame σ (snd (rollout_batch self state B σ)).
Proof.
  unfold rollout_batch. destruct (ic_full_rollout self).
  - apply bind_frame; [apply lift_frame|]. intros st σ1. apply frame_refl.
  - apply bind_frame.
    { repeat split. exists []. by rewrite app_nil_r. }
    intros _ σ1. apply bind_frame; [apply distil_policy_act_frame|].
    intros a σ2. apply frame_refl.
Qed.

Lemma ImaginationCore_call_frame (self : ImaginationCore) (state : tensor Q)
  (σ : world) :
  frame σ (snd (ImaginationCore_call self state σ)).
Proof.
  unfold ImaginationCore_call.
  apply bind_frame; [apply lift_frame|]. intros B σ1.
  apply bind_frame; [apply rollout_batch_frame|]. intros [[st a] n] σ2.
  apply bind_frame; [apply rollout_loop_frame|]. intros [rs rr] σ3.
  apply lift_frame.
Qed.

Lemma I2A_hidden_frame (net : I2A) (state : var Q) (σ : world) :
  frame σ (snd (I2A_hidden net state σ)).
Proof.
  unfold I2A_hidden.
  apply bind_frame; [apply lift_frame|]. intros B σ1.
  apply bind_frame; [apply ImaginationCore_call_frame|]. intros [s r] σ2.
  apply lift_frame.
Qed.

Lemma bind_fst_Ok {A B} (m : M A) (k : A -> M B) (σ : world) (y : B) :
  fst ((m ≫= k) σ) = Ok y ->
  exists x σ1, m σ = (Ok x, σ1) /\ fst (k x σ1) = Ok y.
Proof.
  unfold mbind, M_bind. destruct (m σ) as [[x|e] σ1]; [|done].
  intros E. by exists x, σ1.
Qed.

Lemma I2A_hidden_deps (net : I2A) (state : var Q) (σ : world) (hid : var Q) :
  fst (I2A_hidden net state σ) = Ok hid ->
  forall m, m ∈ grad_deps hid -> m = I2AId.
Proof.
  unfold I2A_hidden. intros E.
  apply bind_fst_Ok in E as (B & σ1 & _ & E).
  apply bind_fst_Ok in E as ([s r] & σ2 & _ & E).
  unfold lift in E. cbn [fst] in E.
  destruct (RolloutEncoder_forward _ _ _) as [eh|] eqn:Eeh; [|done].
  cbn [mbind result_bind] in E. intros m Hm.
  pose proof (var_op_deps _ _ _ m E Hm) as Heh.
  destruct (RolloutEncoder_forward_deps _ _ _ _ m Eeh Heh)
    as [->|[H|H]]; [done | | ]; by apply elem_of_nil in H.
Qed.

(** C10. A call of [I2A.forward], and the call of the imagination core inside
    it, leaves the parameters of the environment model and of the
    distillation policy as they were; every input that the environment model
    is queried with is a volatile variable without history, so that nothing
    is recorded for a backward pass; and a backward pass from the returned
    logits or values reaches the parameters of the agent and whatever the
    input state already depended on, but neither the environment model nor
    the distillation policy through the imagined rollout. *)
Theorem forward_leaves_models_alone (net : I2A) (state : var Q) (σ : world) :
  frame σ (snd (ImaginationCore_call (i2a_imagination net) (var_data state) σ))
  /\ frame σ (snd (I2A_forward net state σ)) /\
  forall logit value,
    fst (I2A_forward net state σ) = Ok (logit, value) ->
    forall m, m ∈ grad_deps logit \/ m ∈ grad_deps value ->
      m = I2AId \/ m ∈ grad_deps state.
Proof.
  split; [apply ImaginationCore_call_frame|]. split.
  { unfold I2A_forward. apply bind_frame; [apply I2A_hidden_frame|].
    intros hid σ1. apply lift_frame. }
  intros logit value. unfold I2A_forward. intros E.
  apply bind_fst_Ok in E as (hid & σ1 & Ehid & E).
  pose proof (I2A_hidden_deps net state σ hid ltac:(by rewrite Ehid)) as Hhid.
  unfold lift in E. cbn [fst] in E.
  destruct (nn.Sequential_forward _ _ state) as [v1|] eqn:E1; [|done].
  cbn [mbind result_bind] in E.
  destruct (torch.size (var_data v1) 0) as [n|]; [|done].
  cbn [mbind result_bind] in E.
  destruct (var_op _ v1) as [v2|] eqn:E2; [|done].
  cbn [mbind result_bind] in E.
  destruct (var_cat v2 hid 1) as [x|] eqn:Ex; [|done].
  cbn [mbind result_bind] in E.
  destruct (nn.Sequential_forward _ _ x) as [x1|] eqn:Ex1; [|done].
  cbn [mbind result_bind] in E.
  destruct (var_module _ (nn.Linear_forward (i2a_actor net)) x1)
    as [lg|] eqn:El; [|done].
  cbn [mbind result_bind] in E.
  destruct (var_module _ (nn.Linear_forward (i2a_critic net)) x1)
    as [vl|] eqn:Ev; [|done].
  cbn [mbind result_bind mret result_ret] in E. injection E as <- <-.
  intros m Hm.
  assert (m = I2AId \/ m ∈ grad_deps x1) as [->|Hx1].
  { destruct Hm as [Hm|Hm];
      [exact (var_module_deps _ _ _ _ m El Hm)
      |exact (var_module_deps _ _ _ _ m Ev Hm)]. }
  { by left. }
  destruct (Sequential_forward_deps _ _ _ _ m Ex1 Hx1) as [->|Hx]; [by left|].
  destruct (var_cat_deps _ _ _ _ m Ex Hx) as [H2|Hh].
  - pose proof (var_op_deps _ _ _ m E2 H2) as H1.
    exact (Sequential_forward_deps _ _ _ _ m E1 H1).
  - left. by apply Hhid.
Qed.

(** C9. An imagination core built with [full_rollout=False] never returns a
    rollout: every call ends in an exception, without a single query to the
    environment model, and for every input that has a batch axis the
    exception is [ValueError('CANNOT USE FULL ROLLOUT')]. *)
Theorem reduced_rollout_unsupported (self : ImaginationCore)
  (state : tensor Q) (σ : world) (Hreduced : ic_full_rollout self = false) :
  exists e σ',
    ImaginationCore_call self state σ = (Raise e, σ') /\
    env_queries σ' = env_queries σ /\
    (shape state <> [] -> e = ValueError "CANNOT USE FULL ROLLOUT").
Proof.
  unfold ImaginationCore_call, rollout_batch. rewrite Hreduced.
  unfold torch.size. destruct (shape state) as [|B sh] eqn:Hs.
  - exists IndexError, σ. cbn [lookup list_lookup]. by repeat split.
  - cbn [lookup list_lookup].
    unfold mbind, M_bind, lift, print, distil_policy_act, raise.
    cbn [policy_params rng Variable_ var_data].
    destruct (policy_act _ _ _) as [a g]. eexists _, _.
    split; [reflexivity|]. by split.
Qed.

(** C2. In full-rollout mode, on a batch of [B] observations of shape
    [(3, h, w)], with [A] actions, rollout depth [T >= 1] and an environment
    model that keeps its interface, the call returns states of shape
    [(T, B * A, 3, h, w)] and rewards of shape [(T, B * A, num_rewards)];
    every reward row has exactly one entry equal to one and zeros elsewhere;
    and the rollout batch size computed by the call is [B * A]. *)
Theorem imagination_shapes (self : ImaginationCore) (B h w : nat)
  (state : tensor Q) (σ : world)
  (Hfull : ic_full_rollout self = true)
  (Hin : ic_in_shape self = [3; h; w]) (Hh : 0 < h) (Hw : 0 < w)
  (HT : 0 < ic_num_rolouts self) (HR : 0 < ic_num_rewards self)
  (Henv : env_model_contract self) (Hsm : softmax_contract)
  (Hstate : shape state = [B; 3; h; w]) :
  let n := B * ic_num_actions self in
  (exists st a, rollout_batch self state B σ = (Ok (st, a, n), σ)) /\
  exists states rewards σ',
    ImaginationCore_call self state σ = (Ok (states, rewards), σ') /\
    shape states = [ic_num_rolouts self; n; 3; h; w] /\
    shape rewards = [ic_num_rolouts self; n; ic_num_rewards self] /\
    wf states /\ wf rewards /\
    Forall is_one_hot
      (chunks (ic_num_rolouts self * n) (ic_num_rewards self) (data rewards)).
Proof.
  intros n. split.
  { destruct (rollout_batch_full self B h w state σ Hfull Hin Hh Hw Hstate)
      as (st & a & E & _). by exists st, a. }
  destruct (ImaginationCore_call_ok self B h w state σ Hfull Hin Hh Hw HT HR
              Henv Hsm Hstate)
    as (states & rewards & σ' & E & Hs & Hr & (pix & Hpl & _ & Hpd)
        & (idx & Hil & Hir & Hid)).
  fold n in Hs, Hr, Hpl, Hil.
  exists states, rewards, σ'. split; [done|]. split; [done|]. split; [done|].
  split; [|split].
  - unfold wf, numel. rewrite Hs, Hpd, (concat_length_const _ 3), length_map, Hpl.
    + simpl. lia.
    + apply Forall_forall. intros l Hl. apply list_elem_of_fmap in Hl.
      by destruct Hl as (p & -> & _).
  - unfold wf, numel.
    rewrite Hr, Hid, (concat_length_const _ (ic_num_rewards self)),
      length_map, Hil.
    + simpl. lia.
    + apply Forall_forall. intros l Hl. apply list_elem_of_fmap in Hl.
      destruct Hl as (p & -> & _). apply one_hot_row_length.
  - rewrite Hid, <- Hil.
    rewrite concat_map_bind.
    rewrite chunks_bind by (intros; apply one_hot_row_length).
    apply Forall_forall. intros row Hrow. apply list_elem_of_fmap in Hrow.
    destruct Hrow as (k & -> & Hk). rewrite Forall_forall in Hir.
    exists k. rewrite one_hot_row_length. split; [by apply Hir | done].
Qed.
End Core.

(** ** Concrete runs *)

Lemma table_env_model_contract (num_actions num_rewards : nat)
  (cats rews : nat -> nat) (self : ImaginationCore) :
  ic_num_rewards self = num_rewards ->
  @env_model_contract
    (table_collaborators num_actions num_rewards cats rews) self.
Proof.
  intros HR θ x n c h w _ Hx. cbn [env_forward table_collaborators].
  unfold table_env_forward. rewrite Hx, HR. by eexists _, _.
Qed.

Lemma table_softmax_contract (num_actions num_rewards : nat)
  (cats rews : nat -> nat) :
  @softmax_contract (table_collaborators num_actions num_rewards cats rews).
Proof. by intros l. Qed.

Lemma imagination_shapes_witness :
  exists states rewards σ',
    @ImaginationCore_call demo demo_core_1x1 demo_state_1x1 (demo_world 0)
      = (Ok (states, rewards), σ') /\
    shape states = [2; 2; 3; 1; 1] /\ shape rewards = [2; 2; 4] /\
    Forall is_one_hot (chunks 4 4 (data rewards)).
Proof.
  destruct (@imagination_shapes demo demo_core_1x1 1 1 1 demo_state_1x1
              (demo_world 0) eq_refl eq_refl ltac:(lia) ltac:(lia)
              ltac:(simpl; lia) ltac:(simpl; lia)
              (table_env_model_contract 2 4 _ _ demo_core_1x1 eq_refl)
              (table_softmax_contract 2 4 _ _) eq_refl)
    as (_ & states & rewards & σ' & E & Hs & Hr & _ & _ & Hrows).
  by exists states, rewards, σ'.
Defined.

Lemma imagination_deterministic_witness :
  fst (@ImaginationCore_call demo demo_core_1x1 demo_state_1x1 (demo_world 0))
  = fst (@ImaginationCore_call demo demo_core_1x1 demo_state_1x1
           (demo_world 7)).
Proof.
  apply (@imagination_deterministic demo demo_core_1x1
           (MkI2A [] 0 0 demo_core_1x1 [] (MkRolloutEncoder [] []
              (nn.MkGRU 0 0 (fun _ => []) (fun _ => []))) []
              (nn.MkLinear 0 0 (fun _ => [])) (nn.MkLinear 0 0 (fun _ => [])))
           demo_state_1x1 demo_state_5x5 (demo_world 0) (demo_world 7)).
  split; reflexivity.
Defined.


Lemma reduced_rollout_unsupported_witness :
  exists σ',
    @ImaginationCore_call demo demo_core_reduced demo_state_1x1 (demo_world 0)
      = (Raise (ValueError "CANNOT USE FULL ROLLOUT"), σ') /\
    env_queries σ' = [].
Proof.
  destruct (@reduced_rollout_unsupported demo demo_core_reduced demo_state_1x1
              (demo_world 0) eq_refl) as (e & σ' & E & Hq & He).
  exists σ'. rewrite E, (He ltac:(done)). by split.
Defined.

(** C1, what the code does. The plane that is concatenated onto the state
    does not depend on the actions: it is [torch.ones], every entry of every
    action channel is one. For one observation, the pixel [(0, 1, 0)], and two
    actions, the two rollout elements are paired with the actions 0 and 1;
    the environment model is nevertheless queried, at the first and at the
    second step, with the channels [1, 1] appended to both elements, where a
    one-hot plane would append [1, 0] to the first and [0, 1] to the
    second. *)
Theorem action_plane_is_all_ones :
  (forall (self : ImaginationCore) (n : nat) (a1 a2 : tensor nat),
     onehot_action_plane self n a1 = onehot_action_plane self n a2) /\
  (forall (self : ImaginationCore) (n : nat) (a : tensor nat),
     Forall (fun x => x = 1%Q) (data (onehot_action_plane self n a))) /\
  map (fun q => data (var_data q))
    (env_queries
       (snd (@ImaginationCore_call demo demo_core_1x1 demo_state_1x1
               (demo_world 0))))
  = [ map inject_Z [0; 1; 0; 1; 1; 0; 1; 0; 1; 1]%Z;
      map inject_Z [1; 1; 0; 1; 1; 0; 1; 0; 1; 1]%Z ].
Proof.
  split; [done|]. split.
  - intros self n a. unfold onehot_action_plane, torch.ones. cbn [data].
    apply Forall_forall. intros x Hx. by apply elem_of_replicate in Hx as [-> _].
  - vm_compute. reflexivity.
Qed.

(** C4, what the code does. The decoder writes one palette entry after the
    other, three numbers per cell, and the result is viewed as
    [(n, 3, h, w)] without moving the channel axis to the front. With
    one observation of one row and two columns and an environment model that
    keeps its interface and predicts the palette entries [(1, 1, 0)] and
    [(0, 1, 0)] for the two cells, the imagined state holds the data
    [1, 1, 0, 0, 1, 0]; its first cell reads [(1, 0, 1)], which is not in
    the palette, and the encoder of the same file raises [KeyError] on
    it. *)
Theorem imagined_cell_outside_palette :
  @env_model_contract demo demo_core_1x2 /\
  exists states rewards σ',
    @ImaginationCore_call demo demo_core_1x2 demo_state_1x2 (demo_world 0)
      = (Ok (states, rewards), σ') /\
    states = Tensor [1; 1; 3; 1; 2] (map inject_Z [1; 1; 0; 0; 1; 0]%Z) /\
    cell_pixel (select0 states 0) 0 0 0 = as_floats (1, 0, 1)%Z /\
    (rounded (cell_pixel (select0 states 0) 0 0 0) ∉ Agent.pixels) /\
    Agent.pix_to_target (select0 states 0) = Raise KeyError.
Proof.
  split; [by apply (table_env_model_contract 2 4)|].
  eexists _, _, _. split; [vm_compute; reflexivity|].
  split; [reflexivity|]. split; [reflexivity|]. split; [|vm_compute; reflexivity].
  vm_compute. intros H.
  by repeat (inversion H as [|? ? ? H']; subst; clear H; rename H' into H).
Qed.

(** ** More on dictionaries and loops *)

Lemma foldl_insert_lookup_Some {K V} `{Countable K} (kvs : list (K * V))
  (m : gmap K V) (k : K) (v : V) :
  foldl (fun m kv => <[kv.1 := kv.2]> m) m kvs !! k = Some v ->
  (k, v) ∈ kvs \/ m !! k = Some v.
Proof.
  revert m. induction kvs as [|[k' v'] kvs IH]; intros m; simpl; [by right|].
  intros E. destruct (IH _ E) as [Hin|Hm].
  - left. by apply list_elem_of_further.
  - apply lookup_insert_Some in Hm as [[<- <-]|[_ Hm]].
    + left. apply list_elem_of_here.
    + by right.
Qed.

Lemma dict_of_lookup_Some {K V} `{Countable K} (kvs : list (K * V)) (k : K)
  (v : V) :
  dict_of kvs !! k = Some v -> (k, v) ∈ kvs.
Proof.
  intros E. apply foldl_insert_lookup_Some in E as [Hin|E]; [done|].
  by rewrite lookup_empty in E.
Qed.

Lemma elem_of_enumerate {A} (l : list A) (i : nat) (x : A) :
  (i, x) ∈ enumerate l <-> l !! i = Some x.
Proof.
  unfold enumerate. rewrite list_elem_of_lookup. split.
  - intros (j & Hj). apply lookup_zip_with_Some in Hj
      as (i' & x' & [= -> ->] & Hi & Hx).
    apply lookup_seq in Hi as [-> _]. done.
  - intros Hx. exists i. apply lookup_zip_with_Some. exists i, x.
    split; [done|]. split; [|done]. apply lookup_seq. split; [done|].
    by apply lookup_lt_Some in Hx.
Qed.

Lemma float_key_eq (x y : Q) : float_key x = float_key y <-> (x == y)%Q.
Proof.
  unfold float_key. split.
  - intros [= Hn Hd]. rewrite <- (Qred_correct x), <- (Qred_correct y).
    destruct (Qred x), (Qred y). simpl in *. by subst.
  - intros E. by rewrite (Qred_complete x y E).
Qed.

Lemma index_of_floats_None (l : list Q) (x : Q) :
  index_of_floats l !! float_key x = None <->
  Forall (fun y => ~ (y == x)%Q) l.
Proof.
  unfold index_of_floats. rewrite dict_of_lookup_None, Forall_forall.
  split.
  - intros Hn y Hy E. apply Hn. apply list_elem_of_lookup in Hy as [i Hi].
    apply list_elem_of_fmap. exists (float_key y, i). split.
    + symmetry. by apply float_key_eq.
    + apply list_elem_of_fmap. exists (i, y). split; [done|].
      by apply elem_of_enumerate.
  - intros Hall Hin. apply list_elem_of_fmap in Hin as ([k i] & Hk & Hin).
    apply list_elem_of_fmap in Hin as ([i' y] & [= -> ->] & Hin).
    apply elem_of_enumerate in Hin. simpl in Hk.
    apply (Hall y); [by eapply list_elem_of_lookup_2|].
    by apply float_key_eq.
Qed.

Lemma index_of_floats_Some (l : list Q) (x : Q) (i : nat) :
  index_of_floats l !! float_key x = Some i ->
  exists y, l !! i = Some y /\ (y == x)%Q.
Proof.
  unfold index_of_floats. intros E. apply dict_of_lookup_Some in E.
  apply list_elem_of_fmap in E as ([i' y] & Heq & Hin).
  apply pair_equal_spec in Heq as [Hk ->].
  apply elem_of_enumerate in Hin. exists y. split; [done|].
  by apply float_key_eq.
Qed.

Lemma mapM_result_Forall2 {A B} (f : A -> result B) (l : list A)
  (ys : list B) :
  mapM f l = Ok ys <-> Forall2 (fun x y => f x = Ok y) l ys.
Proof.
  revert ys. induction l as [|x l IH]; intros ys.
  - split; [intros [= <-]; constructor | by inversion 1].
  - rewrite mapM_result_cons. split.
    + destruct (f x) as [y|] eqn:E; [|done].
      destruct (mapM f l) as [k|]; [|done]. intros [= <-].
      constructor; [done | by apply IH].
    + inversion 1 as [|? y ? k Hy Hk]; subst. rewrite Hy.
      apply IH in Hk. by rewrite Hk.
Qed.

Lemma mapM_result_Raise {A B} (f : A -> result B) (l : list A) (e : exn) :
  mapM f l = Raise e -> Exists (fun x => f x = Raise e) l.
Proof.
  induction l as [|x l IH]; [done|]. rewrite mapM_result_cons.
  destruct (f x) as [y|e'] eqn:E.
  - destruct (mapM f l) as [k|e'']; [done|]. intros [= ->].
    apply Exists_cons_tl. by apply IH.
  - intros [= ->]. by apply Exists_cons_hd.
Qed.

Lemma mapM_result_total {A B} (f : A -> result B) (l : list A) :
  Forall (fun x => exists y, f x = Ok y) l ->
  exists ys, mapM f l = Ok ys.
Proof.
  induction 1 as [|x l [y Hy] _ [ys IH]]; [by exists []|].
  exists (y :: ys). by rewrite mapM_result_cons, Hy, IH.
Qed.

(** ** The reward codec *)

Lemma reward_lookup_known (table : gmap string (list Q)) (mode : string)
  (rs : list Q) (reward : Q) :
  table !! mode = Some rs ->
  (d ← getitem (index_of_floats <$> table) mode; getitem d (float_key reward))
  = getitem (index_of_floats rs) (float_key reward).
Proof.
  intros Hm. unfold getitem. by rewrite lookup_fmap, Hm.
Qed.

Lemma reward_lookup_unknown (table : gmap string (list Q)) (mode : string)
  (reward : Q) :
  table !! mode = None ->
  (d ← getitem (index_of_floats <$> table) mode; getitem d (float_key reward))
  = Raise KeyError.
Proof.
  intros Hm. unfold getitem. by rewrite lookup_fmap, Hm.
Qed.

(** X1. [rewards_to_target] of [imagination_augmented_agent.py]. When it
    returns, it returns one category per reward and, for a non-empty input,
    the mode is one of the table and every category is the position in the
    mode's list of a reward equal to the input reward. When it raises, the
    exception is [KeyError], the input is not empty, and either the mode is
    not in the table or some reward is equal to no entry of the mode's list.
    In particular the empty list of rewards gives the empty list for any
    mode, known or not. *)
Theorem rewards_to_target_spec (mode : string) (rewards : list Q) :
  match Agent.rewards_to_target mode rewards with
  | Ok target =>
      length target = length rewards /\
      (rewards <> [] ->
       exists rs, Agent.task_rewards !! mode = Some rs /\
         Forall2 (fun reward t =>
                    exists y, rs !! t = Some y /\ (y == reward)%Q)
           rewards target)
  | Raise e =>
      e = KeyError /\ rewards <> [] /\
      (Agent.task_rewards !! mode = None \/
       exists rs, Agent.task_rewards !! mode = Some rs /\
         Exists (fun reward => Forall (fun y => ~ (y == reward)%Q) rs) rewards)
  end.
Proof.
  unfold Agent.rewards_to_target, Agent.reward_to_onehot.
  destruct (mapM _ rewards) as [target|e] eqn:E.
  - apply mapM_result_Forall2 in E. split.
    { symmetry. by eapply Forall2_length. }
    intros Hne. destruct (Agent.task_rewards !! mode) as [rs|] eqn:Hm.
    + exists rs. split; [done|]. eapply Forall2_impl; [exact E|].
      intros reward t Ht. cbv beta in Ht.
      rewrite (reward_lookup_known _ _ rs _ Hm) in Ht. unfold getitem in Ht.
      destruct (index_of_floats rs !! float_key reward) as [i|] eqn:Hi; [|done].
      injection Ht as ->. by apply index_of_floats_Some.
    + destruct E as [|reward t ? ? Ht _]; [done|]. cbv beta in Ht.
      by rewrite (reward_lookup_unknown _ _ _ Hm) in Ht.
  - apply mapM_result_Raise in E. apply Exists_exists in E as (reward & Hin & Hr).
    assert (rewards <> []) as Hne by (intros ->; by apply elem_of_nil in Hin).
    destruct (Agent.task_rewards !! mode) as [rs|] eqn:Hm.
    + rewrite (reward_lookup_known _ _ rs _ Hm) in Hr. unfold getitem in Hr.
      destruct (index_of_floats rs !! float_key reward) as [i|] eqn:Hi; [done|].
      injection Hr as <-. split; [done|]. split; [done|]. right.
      exists rs. split; [done|]. apply Exists_exists. exists reward.
      split; [done|]. by apply index_of_floats_None.
    + rewrite (reward_lookup_unknown _ _ _ Hm) in Hr. injection Hr as <-.
      split; [done|]. split; [done|]. by left.
Qed.

(** X2. The reward codecs of the two files agree: the tables [task_rewards]
    and [mode_rewards] are the same, and so are the results of the two
    [rewards_to_target] on every mode and every list of rewards. *)
Theorem rewards_codecs_agree (mode : string) (rewards : list Q) :
  Agent.task_rewards = PacmanUtil.mode_rewards /\
  Agent.rewards_to_target mode rewards =
    PacmanUtil.rewards_to_target mode rewards.
Proof. split; reflexivity. Qed.

(** X3. In every mode the categories are in one-to-one correspondence with
    the rewards of the mode's list: each reward of the list is encoded as its
    own position. *)
Theorem rewards_to_target_position (mode : string) (rs : list Q) (i : nat)
  (reward : Q)
  (Hmode : Agent.task_rewards !! mode = Some rs)
  (Hreward : rs !! i = Some reward) :
  Agent.rewards_to_target mode [reward] = Ok [i].
Proof.
  assert (getitem (index_of_floats rs) (float_key reward) = Ok i) as Hi.
  { pose proof Hmode as Hin. unfold Agent.task_rewards in Hin.
    apply dict_of_lookup_Some in Hin.
    repeat (apply elem_of_cons in Hin as [[= -> ->]|Hin]);
      [..|by apply elem_of_nil in Hin];
      repeat (destruct i as [|i];
              [injection Hreward as <-; vm_compute; reflexivity|]);
      done. }
  unfold Agent.rewards_to_target, Agent.reward_to_onehot.
  rewrite mapM_result_cons. cbn [mapM].
  by rewrite (reward_lookup_known _ _ rs _ Hmode), Hi.
Qed.

Lemma rewards_to_target_position_witness :
  Agent.rewards_to_target "rush" [(99 # 10)%Q] = Ok [2].
Proof.
  apply (rewards_to_target_position "rush" [0; -1 # 10; 99 # 10]%Q 2);
    reflexivity.
Defined.

(** ** Rounding *)

Ltac lra_inject :=
  unfold Z.sub in *;
  rewrite ?inject_Z_plus, ?inject_Z_opp in *;
  change (inject_Z 1) with 1%Q in *;
  change (inject_Z (-1)) with (-1 # 1)%Q in *;
  repeat match goal with
         | |- context [inject_Z ?e] =>
             let q := fresh "q" in set (q := inject_Z e) in *; clearbody q
         | H : context [inject_Z ?e] |- _ =>
             let q := fresh "q" in set (q := inject_Z e) in *; clearbody q
         end;
  lra.

Lemma Qfloor_between (x : Q) (z : Z) :
  (inject_Z z <= x)%Q -> (x < inject_Z z + 1)%Q -> Qfloor x = z.
Proof.
  intros Hl Hu.
  assert (z <= Qfloor x)%Z as H1.
  { rewrite <- (Qfloor_Z z). by apply Qfloor_resp_le. }
  assert (Qfloor x < z + 1)%Z as H2.
  { rewrite Zlt_Qlt. pose proof (Qfloor_le x). lra_inject. }
  lia.
Qed.

Lemma round_near (x : Q) (z : Z) :
  (inject_Z z - (1 # 2) < x)%Q -> (x < inject_Z z + (1 # 2))%Q ->
  np.round x = z.
Proof.
  intros Hl Hu. unfold np.round.
  destruct (Qlt_le_dec x (inject_Z z)) as [Hlt|Hge].
  - assert (Qfloor x = z - 1)%Z as ->.
    { apply Qfloor_between; lra_inject. }
    assert ((x - inject_Z (z - 1) ?= 1 # 2)%Q = Gt) as ->.
    { apply (proj1 (Qgt_alt _ _)). lra_inject. }
    lia.
  - assert (Qfloor x = z) as ->.
    { apply Qfloor_between; lra_inject. }
    assert ((x - inject_Z z ?= 1 # 2)%Q = Lt) as ->.
    { apply (proj1 (Qlt_alt _ _)). lra_inject. }
    done.
Qed.

Lemma round_Z (z : Z) : np.round (inject_Z z) = z.
Proof. apply round_near; lra_inject. Qed.

Lemma ceil_near (x : Q) (z : Z) :
  (inject_Z z - 1 < x)%Q -> (x <= inject_Z z)%Q -> np.ceil x = z.
Proof.
  intros Hl Hu. unfold np.ceil, Qceiling.
  assert (Qfloor (- x) = - z)%Z as ->; [|lia].
  apply Qfloor_between; lra_inject.
Qed.

Lemma ceil_Z (z : Z) : np.ceil (inject_Z z) = z.
Proof. apply ceil_near; lra_inject. Qed.

(** ** The pixel codec, both directions *)

Lemma Agent_to_pixel_lookup (t : nat) :
  Agent.to_pixel !! t = Agent.pixels !! t.
Proof.
  do 7 (destruct t as [|t]; [vm_compute; reflexivity|]).
  transitivity (@None (Z * Z * Z)); [|done].
  unfold Agent.to_pixel. apply dict_of_lookup_None.
  assert ((map (fun kv : Z * Z * Z * nat => (kv.2, kv.1))
             (map_to_list Agent.pixel_to_onehot)).*1 = [0; 5; 2; 1; 6; 4; 3])
    as -> by (vm_compute; reflexivity).
  rewrite !not_elem_of_cons. repeat split; try lia. apply not_elem_of_nil.
Qed.

Lemma PacmanUtil_to_pixel_lookup (t : nat) :
  PacmanUtil.to_pixel !! t = PacmanUtil.pixels !! t.
Proof.
  do 7 (destruct t as [|t]; [vm_compute; reflexivity|]).
  transitivity (@None (Z * Z * Z)); [|done].
  unfold PacmanUtil.to_pixel. apply dict_of_lookup_None.
  assert ((map (fun kv : Z * Z * Z * nat => (kv.2, kv.1))
             (map_to_list PacmanUtil.pixel_to_categorical)).*1
          = [1; 5; 2; 0; 6; 4; 3])
    as -> by (vm_compute; reflexivity).
  rewrite !not_elem_of_cons. repeat split; try lia. apply not_elem_of_nil.
Qed.

Lemma Agent_onehot_lookup (k : Z * Z * Z) (t : nat) :
  Agent.pixel_to_onehot !! k = Some t <-> Agent.pixels !! t = Some k.
Proof.
  split.
  - intros E. unfold Agent.pixel_to_onehot in E.
    apply dict_of_lookup_Some in E.
    apply list_elem_of_fmap in E as ([t' k'] & Heq & Hin).
    apply pair_equal_spec in Heq as [-> ->]. by apply elem_of_enumerate.
  - do 7 (destruct t as [|t]; [intros [= <-]; vm_compute; reflexivity|]).
    done.
Qed.

Lemma PacmanUtil_categorical_lookup (k : Z * Z * Z) (t : nat) :
  PacmanUtil.pixel_to_categorical !! k = Some t <->
  PacmanUtil.pixels !! t = Some k.
Proof.
  split.
  - intros E. unfold PacmanUtil.pixel_to_categorical in E.
    apply dict_of_lookup_Some in E.
    apply list_elem_of_fmap in E as ([t' k'] & Heq & Hin).
    apply pair_equal_spec in Heq as [-> ->]. by apply elem_of_enumerate.
  - do 7 (destruct t as [|t]; [intros [= <-]; vm_compute; reflexivity|]).
    done.
Qed.

(** The decoding loop over a palette given as a list. *)
Lemma decode_loop_spec (to_pixel : gmap nat (Z * Z * Z))
  (palette : list (Z * Z * Z)) (targets : list nat) :
  (forall t, to_pixel !! t = palette !! t) ->
  match mapM (fun target => as_floats <$> getitem to_pixel target) targets with
  | Ok rows =>
      exists pix, rows = map as_floats pix /\
        Forall2 (fun t p => palette !! t = Some p) targets pix
  | Raise e =>
      e = KeyError /\ Exists (fun t => length palette <= t) targets
  end.
Proof.
  intros Hp. destruct (mapM _ targets) as [rows|e] eqn:E.
  - apply mapM_result_Forall2 in E.
    induction E as [|t row targets rows Ht _ (pix & -> & IH)].
    + by exists [].
    + unfold getitem in Ht. rewrite Hp in Ht.
      destruct (palette !! t) as [p|] eqn:Hpt; [|done].
      injection Ht as <-. exists (p :: pix). split; [done|]. by constructor.
  - apply mapM_result_Raise in E. apply Exists_exists in E as (t & Hin & Ht).
    unfold getitem in Ht. rewrite Hp in Ht.
    destruct (palette !! t) as [p|] eqn:Hpt; [done|].
    injection Ht as <-. split; [done|]. apply Exists_exists. exists t.
    split; [done|]. by apply lookup_ge_None.
Qed.

Lemma target_to_pix_spec_aux (targets : list nat) :
  match Agent.target_to_pix targets with
  | Ok a =>
      exists pix, a = np.array_of_rows3 (map as_floats pix) /\
        Forall2 (fun t p => Agent.pixels !! t = Some p) targets pix
  | Raise e =>
      e = KeyError /\ Exists (fun t => Agent.num_pixels <= t) targets
  end /\
  match PacmanUtil.target_to_pix targets with
  | Ok a =>
      exists pix, a = np.array_of_rows3 (map as_floats pix) /\
        Forall2 (fun t p => PacmanUtil.pixels !! t = Some p) targets pix
  | Raise e =>
      e = KeyError /\ Exists (fun t => PacmanUtil.num_pixels <= t) targets
  end.
Proof.
  split.
  - pose proof (decode_loop_spec Agent.to_pixel Agent.pixels targets
                  Agent_to_pixel_lookup) as H.
    unfold Agent.target_to_pix.
    destruct (mapM _ targets) as [rows|e];
      cbn [mbind result_bind mret result_ret]; [|done].
    destruct H as (pix & -> & Hall). by exists pix.
  - pose proof (decode_loop_spec PacmanUtil.to_pixel PacmanUtil.pixels targets
                  PacmanUtil_to_pixel_lookup) as H.
    unfold PacmanUtil.target_to_pix.
    destruct (mapM _ targets) as [rows|e];
      cbn [mbind result_bind mret result_ret]; [|done].
    destruct H as (pix & -> & Hall). by exists pix.
Qed.

(** X4. [target_to_pix], in both files: it raises exactly when some category
    is not below [num_pixels], and the exception is then [KeyError];
    otherwise it returns the array whose rows are the palette entries at the
    given positions, in order. *)
Theorem target_to_pix_spec (targets : list nat) :
  match Agent.target_to_pix targets with
  | Ok a =>
      Forall (fun t => t < Agent.num_pixels) targets /\
      exists pix, a = np.array_of_rows3 (map as_floats pix) /\
        Forall2 (fun t p => Agent.pixels !! t = Some p) targets pix
  | Raise e =>
      e = KeyError /\ Exists (fun t => Agent.num_pixels <= t) targets
  end /\
  match PacmanUtil.target_to_pix targets with
  | Ok a =>
      Forall (fun t => t < PacmanUtil.num_pixels) targets /\
      exists pix, a = np.array_of_rows3 (map as_floats pix) /\
        Forall2 (fun t p => PacmanUtil.pixels !! t = Some p) targets pix
  | Raise e =>
      e = KeyError /\ Exists (fun t => PacmanUtil.num_pixels <= t) targets
  end.
Proof.
  destruct (target_to_pix_spec_aux targets) as [HA HP]. split.
  - destruct (Agent.target_to_pix targets) as [a|e]; [|done].
    destruct HA as (pix & -> & Hall). split; [|by exists pix].
    clear -Hall. induction Hall as [|t p ? ? Ht]; constructor; [|done].
    by apply lookup_lt_Some in Ht.
  - destruct (PacmanUtil.target_to_pix targets) as [a|e]; [|done].
    destruct HP as (pix & -> & Hall). split; [|by exists pix].
    clear -Hall. induction Hall as [|t p ? ? Ht]; constructor; [|done].
    by apply lookup_lt_Some in Ht.
Qed.

Lemma decode_of_encoded (table : gmap (Z * Z * Z) nat)
  (to_pixel : gmap nat (Z * Z * Z)) (key : list Q -> Z * Z * Z)
  (rows : list (list Q)) (target : list nat) :
  (forall k t, table !! k = Some t -> to_pixel !! t = Some k) ->
  mapM (fun pixel => getitem table (key pixel)) rows = Ok target ->
  mapM (fun t => as_floats <$> getitem to_pixel t) target
  = Ok (map (fun pixel => as_floats (key pixel)) rows).
Proof.
  intros Hinv E. apply mapM_result_Forall2 in E. apply mapM_result_Forall2.
  induction E as [|pixel t rows target Ht _ IH]; [constructor|].
  cbn [map]. constructor; [|done]. unfold getitem in *.
  destruct (table !! key pixel) as [t'|] eqn:Hk; [|done].
  injection Ht as ->. by rewrite (Hinv _ _ Hk).
Qed.

(** X5. Decoding after encoding rounds: whenever [pix_to_target] accepts an
    array, [target_to_pix] of its result succeeds and returns, pixel by
    pixel, the rounded components of the input ([np.round] of every cell of
    a channel-first batch in [imagination_augmented_agent.py], [np.ceil] of
    every row of a channel-last array in [pacman_util.py]). *)
Theorem decode_after_encode_rounds (a b : tensor Q) (n h w : nat)
  (pre : list nat) (ta tb : list nat)
  (Ha : shape a = [n; 3; h; w]) (Hb : shape b = pre ++ [3])
  (Hta : Agent.pix_to_target a = Ok ta)
  (Htb : PacmanUtil.pix_to_target b = Ok tb) :
  Agent.target_to_pix ta =
    Ok (np.array_of_rows3
          (map (fun c => as_floats (rounded (cell_pixel a c.1.1 c.1.2 c.2)))
             (cells n h w))) /\
  PacmanUtil.target_to_pix tb =
    Ok (np.array_of_rows3
          (map (fun r => as_floats (ceiled (row_pixel b r)))
             (seq 0 (prod_list pre)))).
Proof.
  rewrite (Agent_pix_to_target_spec a n h w Ha) in Hta.
  rewrite (PacmanUtil_pix_to_target_spec b pre Hb) in Htb.
  split.
  - unfold Agent.target_to_pix.
    rewrite (decode_of_encoded _ _ rounded _ _
               ltac:(intros k t Hk; rewrite Agent_to_pixel_lookup;
                     by apply Agent_onehot_lookup) Hta).
    by rewrite <- list_fmap_compose.
  - unfold PacmanUtil.target_to_pix.
    rewrite (decode_of_encoded _ _ ceiled _ _
               ltac:(intros k t Hk; rewrite PacmanUtil_to_pixel_lookup;
                     by apply PacmanUtil_categorical_lookup) Htb).
    by rewrite <- list_fmap_compose.
Qed.

Lemma decode_after_encode_rounds_witness :
  Agent.target_to_pix [3; 5]
    = Ok (Tensor [2; 3] (map inject_Z [1; 1; 1; 0; 0; 0]%Z)) /\
  PacmanUtil.target_to_pix [3; 5]
    = Ok (Tensor [2; 3] (map inject_Z [1; 1; 1; 0; 0; 0]%Z)).
Proof.
  exact (decode_after_encode_rounds
           (Tensor [1; 3; 1; 2] [6 # 10; 4 # 10; 3 # 4; 1 # 4; 12 # 10; 0]%Q)
           (Tensor [2; 3] [1 # 10; 1 # 2; 9 # 10; 0; -1 # 2; 0]%Q)
           1 1 2 [2] [3; 5] [3; 5] eq_refl eq_refl eq_refl eq_refl).
Defined.

Lemma ceiled_as_floats (p : Z * Z * Z) : ceiled (as_floats p) = p.
Proof.
  destruct p as [[x y] z]. unfold ceiled, as_floats, comp. cbn [nth fst snd].
  by rewrite !ceil_Z.
Qed.

(** X6. In [pacman_util.py], encoding after decoding is the identity: for
    every non-empty list of categories below [num_pixels], [pix_to_target]
    of the array that [target_to_pix] returns is the list itself. The empty
    list decodes to an array of shape [(0,)], on which the encoder's
    assertion on the last axis fails. *)
Theorem encode_after_decode_pacman (targets : list nat) :
  Forall (fun t => t < PacmanUtil.num_pixels) targets ->
  (PacmanUtil.target_to_pix targets ≫= PacmanUtil.pix_to_target) =
  match targets with
  | [] => Raise AssertionError
  | _ => Ok targets
  end.
Proof.
  intros Hrange.
  pose proof (proj2 (target_to_pix_spec_aux targets)) as H.
  destruct (PacmanUtil.target_to_pix targets) as [a|e].
  2:{ destruct H as [_ HE]. apply Exists_exists in HE as (t & Hin & Ht).
      rewrite Forall_forall in Hrange. specialize (Hrange t Hin). lia. }
  destruct H as (pix & -> & Hall). cbn [mbind result_bind].
  destruct Hall as [|t p targets pix Ht Hall]; [done|].
  set (ts := t :: targets) in *. set (ps := p :: pix) in *.
  assert (Forall2 (fun t p => PacmanUtil.pixels !! t = Some p) ts ps)
    as Hall' by (by constructor).
  assert (np.array_of_rows3 (map as_floats ps)
          = Tensor [length ps; 3] (concat (map as_floats ps))) as ->.
  { unfold ps. cbn [map np.array_of_rows3 length]. by rewrite length_map. }
  unfold PacmanUtil.pix_to_target. cbn [shape last]. cbn [Nat.eqb].
  unfold np.reshape_m1_3, numel. cbn [shape].
  replace (prod_list [length ps; 3]) with (length ps * 3) by (simpl; lia).
  rewrite Nat.Div0.mod_mul, Nat.div_mul by done. cbn [Nat.eqb mbind result_bind].
  unfold np.rows. cbn [shape data].
  rewrite concat_map_bind, (chunks_bind _ 3) by done.
  apply mapM_result_Forall2. apply Forall2_fmap_l.
  eapply Forall2_flip, Forall2_impl; [exact Hall'|].
  intros t' p' Hp. cbv beta. pose proof (ceiled_as_floats p') as Hc.
  unfold ceiled in Hc. rewrite Hc. unfold getitem.
  by rewrite (proj2 (PacmanUtil_categorical_lookup p' t') Hp).
Qed.

Lemma encode_after_decode_pacman_witness :
  (PacmanUtil.target_to_pix [6; 0; 3] ≫= PacmanUtil.pix_to_target)
  = Ok [6; 0; 3].
Proof.
  apply (encode_after_decode_pacman [6; 0; 3]).
  unfold PacmanUtil.num_pixels. simpl. repeat constructor.
Defined.

(** ** Noise below the rounding threshold *)

Lemma mapM_map_ext {A B D} (f : B -> result D) (g g' : A -> B) (l : list A) :
  (forall c, f (g c) = f (g' c)) -> mapM f (map g l) = mapM f (map g' l).
Proof.
  intros Hg. induction l as [|c l IH]; [done|].
  cbn [map]. by rewrite !mapM_result_cons, Hg, IH.
Qed.

Lemma nth_round_agree (d : list Q) (zs : list Z) :
  Forall2 (fun x z =>
             (inject_Z z - (1 # 2) < x)%Q /\ (x < inject_Z z + (1 # 2))%Q)
    d zs ->
  forall j, np.round (nth j d 0%Q) = np.round (nth j (map inject_Z zs) 0%Q).
Proof.
  induction 1 as [|x z d zs [Hl Hu] _ IH]; intros j; [by destruct j|].
  destruct j as [|j]; cbn [map nth]; [|apply IH].
  by rewrite (round_near x z Hl Hu), round_Z.
Qed.

Lemma nth_ceil_agree (d : list Q) (zs : list Z) :
  Forall2 (fun x z => (inject_Z z - 1 < x)%Q /\ (x <= inject_Z z)%Q) d zs ->
  forall j, np.ceil (nth j d 0%Q) = np.ceil (nth j (map inject_Z zs) 0%Q).
Proof.
  induction 1 as [|x z d zs [Hl Hu] _ IH]; intros j; [by destruct j|].
  destruct j as [|j]; cbn [map nth]; [|apply IH].
  by rewrite (ceil_near x z Hl Hu), ceil_Z.
Qed.

(** X7. The encoder of [imagination_augmented_agent.py] rounds to the
    nearest level: an observation every component of which is less than one
    half away from a whole number is encoded exactly like the observation of
    those whole numbers, with the same categories or the same exception. *)
Theorem pix_to_target_tolerates_noise (a : tensor Q) (zs : list Z)
  (n h w : nat) (Ha : shape a = [n; 3; h; w])
  (Hnear : Forall2 (fun x z =>
                      (inject_Z z - (1 # 2) < x)%Q /\
                      (x < inject_Z z + (1 # 2))%Q) (data a) zs) :
  Agent.pix_to_target a =
  Agent.pix_to_target (Tensor [n; 3; h; w] (map inject_Z zs)).
Proof.
  rewrite (Agent_pix_to_target_spec a n h w Ha).
  rewrite (Agent_pix_to_target_spec (Tensor [n; 3; h; w] (map inject_Z zs))
             n h w eq_refl).
  apply mapM_map_ext. intros [[i y] x]. unfold cell_pixel. rewrite Ha.
  cbn [shape data seq map]. unfold rounded, comp. cbn [nth].
  by rewrite !(nth_round_agree _ _ Hnear).
Qed.

Lemma pix_to_target_tolerates_noise_witness :
  Agent.pix_to_target (Tensor [1; 3; 1; 1] [4 # 10; 7 # 10; -2 # 10]%Q)
  = Agent.pix_to_target (Tensor [1; 3; 1; 1] (map inject_Z [0; 1; 0]%Z)).
Proof.
  apply (pix_to_target_tolerates_noise
           (Tensor [1; 3; 1; 1] [4 # 10; 7 # 10; -2 # 10]%Q) [0; 1; 0]%Z
           1 1 1 eq_refl).
  repeat constructor.
Defined.

(** X8. The encoder of [pacman_util.py] rounds up: an array every component
    of which lies in the interval from a whole number minus one (excluded) to
    that whole number (included) is encoded exactly like the array of those
    whole numbers. In particular any component strictly between 0 and 1 counts
    as 1. *)
Theorem pix_to_target_rounds_up (b : tensor Q) (zs : list Z) (pre : list nat)
  (Hb : shape b = pre ++ [3])
  (Hnear : Forall2 (fun x z =>
                      (inject_Z z - 1 < x)%Q /\ (x <= inject_Z z)%Q)
             (data b) zs) :
  PacmanUtil.pix_to_target b =
  PacmanUtil.pix_to_target (Tensor (pre ++ [3]) (map inject_Z zs)).
Proof.
  rewrite (PacmanUtil_pix_to_target_spec b pre Hb).
  rewrite (PacmanUtil_pix_to_target_spec
             (Tensor (pre ++ [3]) (map inject_Z zs)) pre eq_refl).
  apply mapM_map_ext. intros r. unfold ceiled, row_pixel, comp. cbn [data].
  rewrite !nth_firstn. cbn [Nat.ltb Nat.leb]. rewrite !nth_skipn.
  by rewrite !(nth_ceil_agree _ _ Hnear).
Qed.

Lemma pix_to_target_rounds_up_witness :
  PacmanUtil.pix_to_target (Tensor [1; 3] [1 # 10; 1; -9 # 10]%Q)
  = PacmanUtil.pix_to_target (Tensor [1; 3] (map inject_Z [1; 1; 0]%Z)).
Proof.
  apply (pix_to_target_rounds_up
           (Tensor [1; 3] [1 # 10; 1; -9 # 10]%Q) [1; 1; 0]%Z [1] eq_refl).
  repeat (constructor; [split; [reflexivity | discriminate]|]). constructor.
Defined.

(** ** How the rollout batch pairs observations and actions *)

Lemma lookup_concat_replicate {A} (l : list A) (n k : nat) :
  k < n * length l ->
  concat (replicate n l) !! k = l !! (k mod length l).
Proof.
  revert k. induction n as [|n IH]; intros k Hk; [simpl in Hk; lia|].
  cbn [replicate concat].
  destruct (decide (k < length l)) as [Hlt|Hge].
  - rewrite lookup_app_l by done. by rewrite Nat.mod_small.
  - rewrite lookup_app_r by lia. rewrite IH by (simpl in Hk; lia).
    f_equal. assert (length l <> 0) by (destruct l; simpl in *; lia).
    replace k with ((k - length l) + 1 * length l) at 2 by lia.
    by rewrite Nat.Div0.mod_add.
Qed.

Lemma block_concat_replicate {A} (d : list A) (copies B sz k : nat) :
  length d = B * sz -> k < copies * B ->
  take sz (drop (k * sz) (concat (replicate copies d))) =
  take sz (drop ((k mod B) * sz) d).
Proof.
  intros Hd. revert k. induction copies as [|n IH]; intros k Hk; [lia|].
  cbn [replicate concat].
  assert (B <> 0) by lia.
  destruct (decide (k < B)) as [Hlt|Hge].
  - rewrite Nat.mod_small by done.
    rewrite drop_app_le by (rewrite Hd; nia).
    rewrite take_app_le; [done|]. rewrite length_drop, Hd. nia.
  - rewrite drop_app_ge by (rewrite Hd; nia).
    replace (k * sz - length d) with ((k - B) * sz) by (rewrite Hd; nia).
    rewrite IH by lia. do 3 f_equal.
    replace k with ((k - B) + 1 * B) at 2 by lia.
    by rewrite Nat.Div0.mod_add.
Qed.

Lemma concat_singletons {A} (l : list A) : concat (map (fun i => [i]) l) = l.
Proof. induction l as [|x l IH]; [done|]. cbn [map concat app]. by f_equal. Qed.

Lemma concat_concat_replicate {A} (rows : list (list A)) (n : nat) :
  concat (concat (replicate n rows)) = concat (replicate n (concat rows)).
Proof.
  induction n as [|n IH]; [done|]. cbn [replicate concat].
  by rewrite concat_app, IH.
Qed.

Section CoreMore.

Context `{C : Collaborators}.

Lemma rollout_batch_full_data (self : ImaginationCore) (B h w : nat)
  (state : tensor Q) (σ : world) :
  ic_full_rollout self = true -> ic_in_shape self = [3; h; w] ->
  0 < h -> 0 < w -> shape state = [B; 3; h; w] ->
  rollout_batch self state B σ =
  (Ok (Tensor [B * ic_num_actions self; 3; h; w]
         (concat (replicate (ic_num_actions self) (data state))),
       torch.LongTensor_rows1
         (concat (replicate B (map (fun i => [i])
                                 (seq 0 (ic_num_actions self))))),
       B * ic_num_actions self), σ).
Proof.
  intros Hfull Hin Hh Hw Hst. unfold rollout_batch. rewrite Hfull, Hin.
  unfold torch.repeat0_5, torch.unsqueeze0. cbn [shape data]. rewrite Hst.
  cbn [length Nat.leb Nat.sub replicate app mbind result_bind].
  set (r := Tensor _ _).
  assert (numel r = B * ic_num_actions self * prod_list [3; h; w]) as Hnum.
  { unfold numel, r. simpl. lia. }
  assert (prod_list [3; h; w] <> 0) as Hk by (simpl; lia).
  rewrite (bind_lift_Ok _ _ _ _
             (view_front r [3; h; w] Hk
                ltac:(rewrite Hnum; apply Nat.Div0.mod_mul))).
  rewrite Hnum, Nat.div_mul by exact Hk. reflexivity.
Qed.

(** X9. In full-rollout mode, element [k] of the rollout batch holds
    observation [k mod B] of the input and is paired with the candidate
    action [k mod A], for a batch of [B] observations and [A] actions: the
    observations are laid out as [A] copies of the whole batch, the actions
    as [B] copies of [0 .. A-1]. *)
Theorem rollout_pairing (self : ImaginationCore) (B h w k : nat)
  (state : tensor Q) (σ : world)
  (Hfull : ic_full_rollout self = true)
  (Hin : ic_in_shape self = [3; h; w]) (Hh : 0 < h) (Hw : 0 < w)
  (Hstate : shape state = [B; 3; h; w]) (Hwf : wf state)
  (Hk : k < B * ic_num_actions self) :
  exists st action,
    rollout_batch self state B σ
      = (Ok (st, action, B * ic_num_actions self), σ) /\
    shape st = [B * ic_num_actions self; 3; h; w] /\
    shape action = [B * ic_num_actions self; 1] /\
    select0 st k = select0 state (k mod B) /\
    data action !! k = Some (k mod ic_num_actions self).
Proof.
  eexists _, _. split.
  { exact (rollout_batch_full_data self B h w state σ Hfull Hin Hh Hw Hstate). }
  set (A := ic_num_actions self) in *.
  assert (B <> 0 /\ A <> 0) as [HB HA] by nia.
  split; [done|]. split; [|split].
  - unfold torch.LongTensor_rows1.
    destruct (concat (replicate B (map (fun i => [i]) (seq 0 A)))) as [|x l] eqn:E.
    + apply (f_equal length) in E.
      rewrite (concat_length_const _ A), length_replicate in E.
      * simpl in E. nia.
      * apply Forall_forall. intros y Hy. apply elem_of_replicate in Hy as [-> _].
        by rewrite length_map, length_seq.
    + rewrite <- E. cbn [shape]. f_equal.
      rewrite (concat_length_const _ A), length_replicate; [done|].
      apply Forall_forall. intros y Hy. apply elem_of_replicate in Hy as [-> _].
      by rewrite length_map, length_seq.
  - unfold select0. cbn [shape data tail]. rewrite Hstate. cbn [tail].
    f_equal. apply (block_concat_replicate _ A B); [|lia].
    unfold wf, numel in Hwf. rewrite Hwf, Hstate. simpl. lia.
  - assert (data (torch.LongTensor_rows1
                    (concat (replicate B (map (fun i => [i]) (seq 0 A)))))
            = concat (replicate B (seq 0 A))) as ->.
    { unfold torch.LongTensor_rows1.
      rewrite <- (concat_singletons (seq 0 A)) at 2.
      rewrite <- concat_concat_replicate.
      by destruct (concat (replicate B _)). }
    rewrite lookup_concat_replicate by (rewrite length_seq; lia).
    rewrite length_seq. apply lookup_seq. split; [done|].
    by apply Nat.mod_upper_bound.
Qed.

End CoreMore.

Lemma rollout_pairing_witness :
  exists st action,
    @rollout_batch demo (MkImaginationCore 1 [3; 1; 1] 2 4 true)
      (Tensor [2; 3; 1; 1] (map inject_Z [0; 1; 0; 1; 1; 1]%Z)) 2
      (demo_world 0) = (Ok (st, action, 4), demo_world 0) /\
    select0 st 3 = Tensor [3; 1; 1] (map inject_Z [1; 1; 1]%Z) /\
    data action !! 3 = Some 1.
Proof.
  destruct (@rollout_pairing demo (MkImaginationCore 1 [3; 1; 1] 2 4 true)
              2 1 1 3 (Tensor [2; 3; 1; 1] (map inject_Z [0; 1; 0; 1; 1; 1]%Z))
              (demo_world 0) eq_refl eq_refl ltac:(lia) ltac:(lia) eq_refl
              eq_refl ltac:(simpl; lia))
    as (st & action & E & _ & _ & Hs & Ha).
  exists st, action. split; [exact E|]. split; [exact Hs | exact Ha].
Defined.

(** ** The policy has no say in the imagination *)

Section PolicyFreeProofs.

Context `{C : Collaborators}.

Lemma bind_agree_env {A B} (m : M A) (k : A -> M B) (σ1 σ2 : world) :
  agree_env (m σ1) (m σ2) ->
  (forall x σ1' σ2', same_env σ1' σ2' -> fst (k x σ1') = fst (k x σ2')) ->
  fst ((m ≫= k) σ1) = fst ((m ≫= k) σ2).
Proof.
  intros Hm Hk. unfold mbind, M_bind, agree_env in *.
  destruct (m σ1) as [[x1|e1] σ1'], (m σ2) as [[x2|e2] σ2']; try done.
  - destruct Hm as [-> Hw]. by apply Hk.
  - by rewrite Hm.
Qed.

Lemma lift_agree_env {A} (r : result A) (σ1 σ2 : world) :
  same_env σ1 σ2 -> agree_env (lift r σ1) (lift r σ2).
Proof. intros Hw. unfold lift, agree_env. by destruct r. Qed.

Lemma rollout_step_agree_env (self : ImaginationCore) (n : nat)
  (state : tensor Q) (a1 a2 : tensor nat) (σ1 σ2 : world) :
  same_env σ1 σ2 ->
  match rollout_step self n state a1 σ1, rollout_step self n state a2 σ2 with
  | (Ok (s1, r1, _), σ1'), (Ok (s2, r2, _), σ2') =>
      s1 = s2 /\ r1 = r2 /\ same_env σ1' σ2'
  | (Raise e1, _), (Raise e2, _) => e1 = e2
  | _, _ => False
  end.
Proof.
  destruct σ1 as [e1 p1 g1 q1 o1], σ2 as [e2 p2 g2 q2 o2].
  unfold same_env. cbn [env_params]. intros <-.
  unfold rollout_step, onehot_action_plane.
  unfold mbind, M_bind, lift, env_model, distil_policy_act, mret, M_ret.
  destruct (torch.cat _ 1) as [inputs|]; [|done].
  cbn [Variable_ var_data volatile env_params policy_params rng env_queries
         stdout].
  destruct (env_forward _ _) as [[image reward]|]; [|done].
  destruct (var_data <$> var_op _ _) as [targets|]; [|done].
  destruct (var_data <$> var_op _ _) as [idx|]; [|done].
  destruct (result_bind _ _ _ _) as [decoded|]; [|done].
  destruct (torch.view _ _) as [imagined|]; [|done].
  destruct (torch.index_put_range _ _ _ _) as [onehot|]; [|done].
  cbn [env_params policy_params rng env_queries stdout].
  destruct (policy_act p1 _ g1) as [act1 g1'].
  destruct (policy_act p2 _ g2) as [act2 g2'].
  repeat split.
Qed.

Lemma rollout_loop_agree_env (self : ImaginationCore) (n steps : nat) :
  forall (state : tensor Q) (a1 a2 : tensor nat) (rs rr : list (tensor Q))
    (σ1 σ2 : world),
    same_env σ1 σ2 ->
    fst (rollout_loop self n steps state a1 rs rr σ1) =
    fst (rollout_loop self n steps state a2 rs rr σ2).
Proof.
  induction steps as [|steps IH]; intros state a1 a2 rs rr σ1 σ2 Hw; [done|].
  cbn [rollout_loop]. unfold mbind, M_bind.
  pose proof (rollout_step_agree_env self n state a1 a2 σ1 σ2 Hw) as Hstep.
  destruct (rollout_step self n state a1 σ1) as [[[[s1 r1] x1]|e1] σ1'],
    (rollout_step self n state a2 σ2) as [[[[s2 r2] x2]|e2] σ2'];
    try done.
  - destruct Hstep as (-> & -> & Hw'). by apply IH.
  - by rewrite Hstep.
Qed.

Lemma rollout_batch_agree_env (self : ImaginationCore) (state : tensor Q)
  (B : nat) (σ1 σ2 : world) :
  same_env σ1 σ2 ->
  agree_env (rollout_batch self state B σ1) (rollout_batch self state B σ2).
Proof.
  intros Hw. unfold rollout_batch, agree_env. destruct (ic_full_rollout self).
  - unfold mbind, M_bind, lift, mret, M_ret.
    by destruct (result_bind _ _ _ _) as [st|].
  - unfold mbind, M_bind, print, distil_policy_act, raise.
    cbn [policy_params rng].
    by destruct (policy_act _ _ (rng σ1)), (policy_act _ _ (rng σ2)).
Qed.

Lemma ImaginationCore_call_agree_env (self : ImaginationCore)
  (state : tensor Q) (σ1 σ2 : world) :
  same_env σ1 σ2 ->
  fst (ImaginationCore_call self state σ1) =
  fst (ImaginationCore_call self state σ2).
Proof.
  intros Hw. unfold ImaginationCore_call.
  apply bind_agree_env; [by apply lift_agree_env|]. clear σ1 σ2 Hw.
  intros B σ1 σ2 Hw. apply bind_agree_env.
  { exact (rollout_batch_agree_env self state B σ1 σ2 Hw). }
  clear σ1 σ2 Hw. intros [[st a] n] σ1 σ2 Hw.
  unfold mbind, M_bind.
  pose proof (rollout_loop_agree_env self n (ic_num_rolouts self) st a a
                [] [] σ1 σ2 Hw) as Hl.
  destruct (rollout_loop self n _ st a [] [] σ1) as [[[rs1 rr1]|e1] σ1'],
    (rollout_loop self n _ st a [] [] σ2) as [[[rs2 rr2]|e2] σ2'];
    cbn [fst] in Hl; try done.
  - by injection Hl as -> ->.
  - by injection Hl as ->.
Qed.

(** X10. The distillation policy has no influence on what is imagined: the
    results of [ImaginationCore.__call__] and of [I2A.forward] are the same
    in any two surroundings that hold the same environment-model parameters,
    whatever the parameters of the policy and the state of its random
    generator. (The policy is called at every step, and its actions are
    dropped.) *)
Theorem imagination_ignores_policy (self : ImaginationCore) (net : I2A)
  (state : tensor Q) (v : var Q) (σ1 σ2 : world)
  (Henv : env_params σ1 = env_params σ2) :
  fst (ImaginationCore_call self state σ1) =
    fst (ImaginationCore_call self state σ2) /\
  fst (I2A_forward net v σ1) = fst (I2A_forward net v σ2).
Proof.
  split; [by apply ImaginationCore_call_agree_env|].
  unfold I2A_forward.
  assert (fst (I2A_hidden net v σ1) = fst (I2A_hidden net v σ2)) as Hh.
  { unfold I2A_hidden.
    apply bind_agree_env; [by apply lift_agree_env|].
    intros B τ1 τ2 Hw. unfold mbind, M_bind.
    pose proof (ImaginationCore_call_agree_env (i2a_imagination net)
                  (var_data v) τ1 τ2 Hw) as Hc.
    destruct (ImaginationCore_call _ _ τ1) as [[[s1 r1]|e1] τ1'],
      (ImaginationCore_call _ _ τ2) as [[[s2 r2]|e2] τ2']; cbn [fst] in Hc;
      try done.
    - by injection Hc as -> ->.
    - by injection Hc as ->. }
  unfold mbind, M_bind.
  destruct (I2A_hidden net v σ1) as [[h1|e1] τ1],
    (I2A_hidden net v σ2) as [[h2|e2] τ2]; cbn [fst] in Hh; try done.
  - by injection Hh as ->.
  - by injection Hh as ->.
Qed.

End PolicyFreeProofs.

Lemma imagination_ignores_policy_witness :
  fst (@ImaginationCore_call demo_offset demo_core_1x1 demo_state_1x1
         (@World demo_offset tt 0 0 [] []))
  = fst (@ImaginationCore_call demo_offset demo_core_1x1 demo_state_1x1
           (@World demo_offset tt 1 5 [] [])).
Proof.
  apply (@imagination_ignores_policy demo_offset demo_core_1x1
           (MkI2A [] 0 0 demo_core_1x1 [] (MkRolloutEncoder [] []
              (nn.MkGRU 0 0 (fun _ => []) (fun _ => []))) []
              (nn.MkLinear 0 0 (fun _ => [])) (nn.MkLinear 0 0 (fun _ => [])))
           demo_state_1x1 demo_state_5x5).
  reflexivity.
Defined.

(** ** What a call does besides returning *)

Section Effects.

Context `{C : Collaborators}.

Lemma rollout_step_effects (self : ImaginationCore) (n h w : nat)
  (state : tensor Q) (action : tensor nat) (σ σ' : world)
  (x : tensor Q * tensor Q * tensor nat) :
  ic_in_shape self = [3; h; w] -> shape state = [n; 3; h; w] ->
  rollout_step self n state action σ = (Ok x, σ') ->
  exists q,
    env_queries σ' = env_queries σ ++ [q] /\
    shape (var_data q) = [n; 3 + ic_num_actions self; h; w] /\
    volatile q = true /\ stdout σ' = stdout σ /\
    env_params σ' = env_params σ /\ policy_params σ' = policy_params σ /\
    rng σ' = snd (policy_act (policy_params σ) x.1.1 (rng σ)).
Proof.
  intros Hin Hst. unfold rollout_step.
  assert (shape (onehot_action_plane self n action)
          = [n; ic_num_actions self; h; w]) as Hplane.
  { unfold onehot_action_plane. by rewrite Hin. }
  destruct (cat2_shape state (onehot_action_plane self n action) [n] [h; w]
              3 (ic_num_actions self) Hst Hplane) as (inputs & Hcat & Hinputs).
  cbn [length app] in Hcat, Hinputs.
  rewrite (bind_lift_Ok _ inputs) by exact Hcat.
  unfold mbind, M_bind, lift, env_model, distil_policy_act, mret, M_ret.
  cbn [Variable_ var_data volatile].
  destruct (env_forward _ _) as [[image reward]|]; [|done].
  destruct (var_data <$> var_op _ _) as [targets|]; [|done].
  destruct (var_data <$> var_op _ _) as [idx|]; [|done].
  destruct (result_bind _ _ _ _) as [decoded|]; [|done].
  destruct (torch.view _ _) as [imagined|]; [|done].
  destruct (torch.index_put_range _ _ _ _) as [onehot|]; [|done].
  cbn [env_params policy_params rng env_queries stdout].
  destruct (policy_act _ _ _) as [act g] eqn:Hact.
  intros [= <- <-]. cbn [fst snd env_queries stdout env_params policy_params rng].
  exists (MkVar inputs true []). rewrite Hact. by repeat split.
Qed.

Lemma rollout_loop_effects (self : ImaginationCore) (n h w steps : nat) :
  ic_in_shape self = [3; h; w] ->
  env_model_contract self -> softmax_contract ->
  0 < ic_num_rewards self ->
  forall (state : tensor Q) (action : tensor nat)
    (rs rr : list (tensor Q)) (σ σ' : world) x,
    shape state = [n; 3; h; w] ->
    rollout_loop self n steps state action rs rr σ = (Ok x, σ') ->
    exists qs,
      env_queries σ' = env_queries σ ++ qs /\ length qs = steps /\
      Forall (fun q => shape (var_data q)
                       = [n; 3 + ic_num_actions self; h; w] /\
                       volatile q = true) qs /\
      stdout σ' = stdout σ.
Proof.
  intros Hin Henv Hsm Hrew.
  induction steps as [|steps IH]; intros state action rs rr σ σ' x Hst.
  - cbn [rollout_loop]. intros [= <- <-]. exists []. by rewrite app_nil_r.
  - cbn [rollout_loop].
    destruct (rollout_step_ok self n h w state action σ Hin Henv Hsm Hrew Hst)
      as (s & r & a & σ1 & Hstep & (Hs & _) & _).
    rewrite (bind_Ok _ _ _ _ _ Hstep). cbn beta iota zeta. intros Hloop.
    destruct (rollout_step_effects self n h w state action σ σ1 _ Hin Hst Hstep)
      as (q & Hq & Hqs & Hqv & Hout & _).
    destruct (IH _ _ _ _ _ _ _ Hs Hloop) as (qs & Hqq & Hlen & Hall & Hout').
    exists (q :: qs). rewrite Hqq, Hq, <- app_assoc. split; [done|].
    split; [simpl; by rewrite Hlen|]. split; [by constructor|]. congruence.
Qed.

(** X11. A successful call in full-rollout mode queries the environment
    model exactly [num_rolouts] times, once per imagined step, each time with
    a volatile batch of shape [(B * A, 3 + A, h, w)] (the state channels
    followed by one channel per action), and prints nothing. *)
Theorem imagination_queries (self : ImaginationCore) (B h w : nat)
  (state : tensor Q) (σ : world)
  (Hfull : ic_full_rollout self = true)
  (Hin : ic_in_shape self = [3; h; w]) (Hh : 0 < h) (Hw : 0 < w)
  (HT : 0 < ic_num_rolouts self) (HR : 0 < ic_num_rewards self)
  (Henv : env_model_contract self) (Hsm : softmax_contract)
  (Hstate : shape state = [B; 3; h; w]) :
  exists states rewards σ' qs,
    ImaginationCore_call self state σ = (Ok (states, rewards), σ') /\
    env_queries σ' = env_queries σ ++ qs /\
    length qs = ic_num_rolouts self /\
    Forall (fun q =>
              shape (var_data q)
              = [B * ic_num_actions self; 3 + ic_num_actions self; h; w] /\
              volatile q = true) qs /\
    stdout σ' = stdout σ.
Proof.
  destruct (ImaginationCore_call_ok self B h w state σ Hfull Hin Hh Hw HT HR
              Henv Hsm Hstate) as (states & rewards & σ' & E & _).
  exists states, rewards, σ'. pose proof E as E'.
  unfold ImaginationCore_call in E'.
  rewrite (bind_lift_Ok _ B) in E' by (unfold torch.size; by rewrite Hstate).
  rewrite (bind_Ok _ _ _ _ _
             (rollout_batch_full_data self B h w state σ Hfull Hin Hh Hw Hstate))
    in E'.
  cbn beta iota zeta in E'. unfold mbind, M_bind in E'.
  destruct (rollout_loop _ _ _ _ _ _ _ σ) as [[[rs rr]|e] σ1] eqn:Hloop;
    [|done].
  unfold lift in E'. injection E' as _ <-.
  destruct (rollout_loop_effects self (B * ic_num_actions self) h w _
              Hin Henv Hsm HR
              (Tensor [B * ic_num_actions self; 3; h; w]
                 (concat (replicate (ic_num_actions self) (data state))))
              _ _ _ _ _ _ eq_refl Hloop)
    as (qs & Hq & Hlen & Hall & Hout).
  by exists qs.
Qed.

(** X12. With [full_rollout=False] and an input that has a batch axis, the
    call prints the line [NOT USING FULL ROLLOUT], asks the distillation
    policy once for an action on the input as it is (which advances the
    policy's random generator), leaves everything else untouched, and only
    then raises. *)
Theorem reduced_rollout_effects (self : ImaginationCore) (state : tensor Q)
  (σ : world) (Hreduced : ic_full_rollout self = false)
  (Hbatch : shape state <> []) :
  snd (ImaginationCore_call self state σ) =
  World (env_params σ) (policy_params σ)
    (snd (policy_act (policy_params σ) state (rng σ)))
    (env_queries σ) (stdout σ ++ ["NOT USING FULL ROLLOUT"]).
Proof.
  unfold ImaginationCore_call, rollout_batch. rewrite Hreduced.
  unfold torch.size. destruct (shape state) as [|B sh] eqn:Hs; [done|].
  cbn [lookup list_lookup].
  unfold mbind, M_bind, lift, print, distil_policy_act, raise.
  cbn [policy_params rng Variable_ var_data env_params env_queries stdout].
  by destruct (policy_act _ _ _) as [a g].
Qed.


End Effects.

(** ** Building the agent *)




Section Mismatch.

Context `{C : Collaborators}.

Lemma I2A_hidden_ok (net : I2A) (B h w A R hidden T : nat) (θ : I2A_weights)
  (state : var Q) (σ : world) :
  let imagination := MkImaginationCore T [3; h; w] A R true in
  1 <= A -> 1 <= B -> 5 <= h -> 5 <= w -> 1 <= T -> 1 <= R ->
  env_model_contract imagination -> softmax_contract ->
  shape (var_data state) = [B; 3; h; w] ->
  i2a_imagination net = imagination ->
  RolloutEncoder_init [3; h; w] R hidden θ = Ok (i2a_encoder net) ->
  exists hid σ1,
    I2A_hidden net state σ = (Ok hid, σ1) /\
    shape (var_data hid) = [B; A * hidden].
Proof.
  intros imagination HA HB Hh Hw HT HR Henv Hsm Hst Him Henc.
  destruct (ImaginationCore_call_ok imagination B h w (var_data state) σ
              eq_refl eq_refl ltac:(lia) ltac:(lia) HT HR Henv Hsm Hst)
    as (states & rewards & σ1 & Hcall & Hss & Hsr & _ & _).
  cbn [ic_num_rolouts ic_num_actions ic_num_rewards imagination] in Hss, Hsr.
  destruct (RolloutEncoder_forward_shape θ T (B * A) h w R hidden
              (Variable_ states false) (Variable_ rewards false)
              Hh Hw HT ltac:(nia) Hss Hsr) as (enc & Henc' & eh & Heh & Hehs).
  rewrite Henc in Henc'. injection Henc' as <-.
  assert (numel (var_data eh) = A * hidden * prod_list [B]) as Hnum.
  { unfold numel. rewrite Hehs. simpl. lia. }
  destruct (var_op_Ok (fun t => torch.view t [Some B; None]) eh
              (Tensor [B; A * hidden] (data (var_data eh))))
    as (hid & Ehid & Hhid).
  { rewrite (view_back _ [B]).
    - cbn [app]. by rewrite Hnum, Nat.div_mul by (simpl; lia).
    - simpl; lia.
    - rewrite Hnum. apply Nat.Div0.mod_mul. }
  exists hid, σ1. split; [|by rewrite Hhid].
  unfold I2A_hidden. rewrite Him.
  rewrite (bind_lift_Ok _ B) by (unfold torch.size; by rewrite Hst).
  rewrite (bind_Ok _ _ _ _ _ Hcall). cbn beta iota zeta.
  unfold lift. rewrite Heh. cbn [mbind result_bind]. by rewrite Ehid.
Qed.

(** X15. An agent built with [full_rollout=False] does not fit an
    imagination core in full-rollout mode: its fusion layer takes
    [feature_size + hidden_size] inputs while the imagination summary has
    [num_actions * hidden_size] entries per batch element, so that
    [forward] raises a size mismatch in the fusion layer, unless
    [num_actions * hidden_size = hidden_size]. *)
Theorem reduced_agent_full_core_mismatch (B h w A R hidden T : nat)
  (θ : I2A_weights) (state : var Q) (σ : world) :
  let imagination := MkImaginationCore T [3; h; w] A R true in
  1 <= A -> 1 <= B -> 5 <= h -> 5 <= w -> 1 <= T -> 1 <= R ->
  env_model_contract imagination -> softmax_contract ->
  shape (var_data state) = [B; 3; h; w] ->
  A * hidden <> hidden ->
  exists net σ',
    I2A_init [3; h; w] A R hidden imagination false θ = Ok net /\
    I2A_forward net state σ
      = (Raise (RuntimeError "Linear: size mismatch"), σ').
Proof.
  intros imagination HA HB Hh Hw HT HR Henv Hsm Hst Hne.
  destruct (feature_size_ok (w_features1 θ) (w_features2 θ) h w Hh Hw)
    as (features & Hf & Hfs).
  destruct (feature_size_ok (w_enc_features1 θ) (w_enc_features2 θ) h w Hh Hw)
    as (efeatures & Hef & Hefs).
  assert (RolloutEncoder_init [3; h; w] R hidden θ
          = Ok (MkRolloutEncoder [3; h; w] efeatures
                  (nn.MkGRU (features_width h w + R) hidden
                     (w_gru_output θ) (w_gru_hidden θ)))) as Henc.
  { unfold RolloutEncoder_init. rewrite Hef. cbn [mbind result_bind].
    by rewrite Hefs. }
  assert (exists net,
            I2A_init [3; h; w] A R hidden imagination false θ = Ok net /\
            i2a_imagination net = imagination /\
            i2a_encoder net
              = MkRolloutEncoder [3; h; w] efeatures
                  (nn.MkGRU (features_width h w + R) hidden
                     (w_gru_output θ) (w_gru_hidden θ)) /\
            i2a_features net = features /\
            i2a_fc net
              = [nn.LLinear (nn.MkLinear (features_width h w + hidden) 256
                               (w_fc θ)); nn.LReLU])
    as (net & Hinit & Him & Hnenc & Hnf & Hnfc).
  { unfold I2A_init. rewrite Hf. cbn [mbind result_bind]. rewrite Henc.
    cbn [mbind result_bind]. rewrite Hfs.
    cbn [mbind result_bind mret result_ret]. by eexists. }
  rewrite <- Hnenc in Henc.
  destruct (I2A_hidden_ok net B h w A R hidden T θ state σ HA HB Hh Hw HT HR
              Henv Hsm Hst Him Henc) as (hid & σ1 & Hhidden & Hhs).
  exists net, σ1. split; [exact Hinit|].
  unfold I2A_forward. rewrite Hnf, Hnfc. rewrite (bind_Ok _ _ _ _ _ Hhidden).
  unfold lift.
  destruct (features_forward_shape I2AId (w_features1 θ) (w_features2 θ)
              state B h w Hh Hw Hst) as (features' & Hf' & v1 & E1 & H1).
  rewrite Hf in Hf'. injection Hf' as <-. rewrite E1.
  cbn [mbind result_bind]. unfold torch.size at 1. rewrite H1.
  cbn [lookup list_lookup mbind result_bind].
  assert (numel (var_data v1) = features_width h w * prod_list [B]) as Hnum1.
  { rewrite (numel_4 _ _ _ _ _ H1). unfold features_width. simpl. lia. }
  destruct (var_op_Ok (fun t => torch.view t [Some B; None]) v1
              (Tensor [B; features_width h w] (data (var_data v1))))
    as (v2 & E2 & H2).
  { rewrite (view_back _ [B]).
    - cbn [app]. by rewrite Hnum1, Nat.div_mul by (simpl; lia).
    - simpl; lia.
    - rewrite Hnum1. apply Nat.Div0.mod_mul. }
  rewrite E2. cbn [mbind result_bind].
  destruct (var_cat_Ok v2 hid [B] [] (features_width h w) (A * hidden)
              ltac:(by rewrite H2) Hhs) as (x & Ex & Hx).
  cbn [length app] in Ex, Hx. rewrite Ex. cbn [mbind result_bind].
  cbn [nn.Sequential_forward nn.layer_forward].
  unfold var_module, nn.Linear_forward. rewrite Hx. cbn [last nn.in_features].
  destruct (Nat.eqb_spec (features_width h w + A * hidden)
              (features_width h w + hidden)) as [Heq|_]; [lia|].
  reflexivity.
Qed.

End Mismatch.

(** ** Concrete runs for the statements above *)

Lemma imagination_queries_witness :
  exists states rewards σ' qs,
    @ImaginationCore_call demo demo_core_1x1 demo_state_1x1 (demo_world 0)
      = (Ok (states, rewards), σ') /\
    env_queries σ' = qs /\ length qs = 2 /\ stdout σ' = [].
Proof.
  destruct (@imagination_queries demo demo_core_1x1 1 1 1 demo_state_1x1
              (demo_world 0) eq_refl eq_refl ltac:(lia) ltac:(lia)
              ltac:(simpl; lia) ltac:(simpl; lia)
              (table_env_model_contract 2 4 _ _ demo_core_1x1 eq_refl)
              (table_softmax_contract 2 4 _ _) eq_refl)
    as (states & rewards & σ' & qs & E & Hq & Hlen & _ & Hout).
  exists states, rewards, σ', qs. split; [exact E|].
  split; [exact Hq|]. split; [exact Hlen | exact Hout].
Defined.

Lemma reduced_rollout_effects_witness :
  snd (@ImaginationCore_call demo demo_core_reduced demo_state_1x1
         (demo_world 0))
  = @World demo tt tt 1 [] ["NOT USING FULL ROLLOUT"].
Proof.
  exact (@reduced_rollout_effects demo demo_core_reduced demo_state_1x1
           (demo_world 0) eq_refl ltac:(done)).
Defined.


Lemma reduced_agent_full_core_mismatch_witness :
  exists net σ',
    I2A_init [3; 5; 5] 2 4 3 demo_core_5x5 false zero_weights = Ok net /\
    @I2A_forward demo net demo_state_5x5 (demo_world 0)
      = (Raise (RuntimeError "Linear: size mismatch"), σ').
Proof.
  exact (@reduced_agent_full_core_mismatch demo 1 5 5 2 4 3 1 zero_weights
           demo_state_5x5 (demo_world 0)
           ltac:(lia) ltac:(lia) ltac:(lia) ltac:(lia) ltac:(lia) ltac:(lia)
           (table_env_model_contract 2 4 _ _ demo_core_5x5 eq_refl)
           (table_softmax_contract 2 4 _ _) eq_refl ltac:(lia)).
Defined.

(** ** The rollout encoder on its own *)



(** ** Volatile inputs *)

Lemma var_op_volatile {A B} (f : tensor A -> result (tensor B)) (v : var A)
  (v' : var B) :
  var_op f v = Ok v' ->
  volatile v' = volatile v /\
  grad_deps v' = (if volatile v then [] else grad_deps v).
Proof.
  unfold var_op. destruct (f (var_data v)) as [t|]; [|done].
  cbn [mbind result_bind mret result_ret]. by intros [= <-].
Qed.

Lemma var_module_volatile {A B} (o : module_id)
  (f : tensor A -> result (tensor B)) (v : var A) (v' : var B) :
  var_module o f v = Ok v' ->
  volatile v' = volatile v /\
  grad_deps v' = (if volatile v then [] else o :: grad_deps v).
Proof.
  unfold var_module. destruct (f (var_data v)) as [t|]; [|done].
  cbn [mbind result_bind mret result_ret]. by intros [= <-].
Qed.

Lemma var_cat_volatile {A} (v1 v2 v : var A) (dim : nat) :
  var_cat v1 v2 dim = Ok v -> volatile v = volatile v1 || volatile v2.
Proof.
  unfold var_cat. destruct (torch.cat _ _) as [t|]; [|done].
  cbn [mbind result_bind mret result_ret]. by intros [= <-].
Qed.

Lemma Sequential_forward_volatile (o : module_id) (layers : list nn.layer) :
  forall v v' : var Q,
    nn.Sequential_forward o layers v = Ok v' -> volatile v' = volatile v.
Proof.
  induction layers as [|l layers IH]; intros v v'.
  - cbn [nn.Sequential_forward]. by intros [= <-].
  - cbn [nn.Sequential_forward].
    destruct (nn.layer_forward o l v) as [v1|] eqn:E1; [|done].
    cbn [mbind result_bind]. intros E. rewrite (IH _ _ E).
    destruct l; cbn [nn.layer_forward] in E1.
    + by apply var_module_volatile in E1 as [-> _].
    + by apply var_module_volatile in E1 as [-> _].
    + by apply var_op_volatile in E1 as [-> _].
Qed.

Lemma RolloutEncoder_forward_volatile (enc : RolloutEncoder)
  (state reward hid : var Q) :
  RolloutEncoder_forward enc state reward = Ok hid ->
  volatile hid = volatile state || volatile reward.
Proof.
  unfold RolloutEncoder_forward.
  destruct (torch.size (var_data state) 0) as [T|]; [|done].
  cbn [mbind result_bind].
  destruct (torch.size (var_data state) 1) as [n|]; [|done].
  cbn [mbind result_bind].
  destruct (var_op _ state) as [v1|] eqn:E1; [|done]. cbn [mbind result_bind].
  destruct (nn.Sequential_forward _ _ v1) as [v2|] eqn:E2; [|done].
  cbn [mbind result_bind].
  destruct (var_op _ v2) as [v3|] eqn:E3; [|done]. cbn [mbind result_bind].
  destruct (var_cat v3 reward 2) as [v4|] eqn:E4; [|done].
  cbn [mbind result_bind].
  destruct (var_module _ _ v4) as [v5|] eqn:E5; [|done].
  cbn [mbind result_bind]. intros E6.
  apply var_op_volatile in E6 as [-> _].
  apply var_module_volatile in E5 as [-> _].
  rewrite (var_cat_volatile _ _ _ _ E4).
  apply var_op_volatile in E3 as [-> _].
  rewrite (Sequential_forward_volatile _ _ _ _ E2).
  by apply var_op_volatile in E1 as [-> _].
Qed.

Section Volatility.

Context `{C : Collaborators}.

(** X17. The outputs of [I2A.forward] are volatile exactly when the input
    state is: on a volatile input (as for the bootstrap value of the training
    loop) logits and values carry no history at all; on an ordinary input
    they are not volatile and a backward pass from either of them reaches
    the parameters of the agent. *)
Theorem forward_volatility (net : I2A) (state : var Q) (σ : world)
  (logit value : var Q)
  (Hforward : fst (I2A_forward net state σ) = Ok (logit, value)) :
  volatile logit = volatile state /\ volatile value = volatile state /\
  (volatile state = true -> grad_deps logit = [] /\ grad_deps value = []) /\
  (volatile state = false ->
   I2AId ∈ grad_deps logit /\ I2AId ∈ grad_deps value).
Proof.
  unfold I2A_forward in Hforward.
  apply bind_fst_Ok in Hforward as (hid & σ1 & Ehid & E).
  assert (volatile hid = false) as Hhid.
  { unfold I2A_hidden in Ehid.
    assert (fst ((lift (torch.size (var_data state) 0) ≫= _) σ) = Ok hid)
      as E0 by (by rewrite Ehid).
    apply bind_fst_Ok in E0 as (B & σ2 & _ & E0).
    apply bind_fst_Ok in E0 as ([s r] & σ3 & _ & E0).
    unfold lift in E0. cbn [fst] in E0.
    destruct (RolloutEncoder_forward _ _ _) as [eh|] eqn:Eeh; [|done].
    cbn [mbind result_bind] in E0.
    apply var_op_volatile in E0 as [-> _].
    by rewrite (RolloutEncoder_forward_volatile _ _ _ _ Eeh). }
  unfold lift in E. cbn [fst] in E.
  destruct (nn.Sequential_forward _ _ state) as [v1|] eqn:E1; [|done].
  cbn [mbind result_bind] in E.
  destruct (torch.size (var_data v1) 0) as [n|]; [|done].
  cbn [mbind result_bind] in E.
  destruct (var_op _ v1) as [v2|] eqn:E2; [|done].
  cbn [mbind result_bind] in E.
  destruct (var_cat v2 hid 1) as [x|] eqn:Ex; [|done].
  cbn [mbind result_bind] in E.
  destruct (nn.Sequential_forward _ _ x) as [x1|] eqn:Ex1; [|done].
  cbn [mbind result_bind] in E.
  destruct (var_module _ (nn.Linear_forward (i2a_actor net)) x1)
    as [lg|] eqn:El; [|done].
  cbn [mbind result_bind] in E.
  destruct (var_module _ (nn.Linear_forward (i2a_critic net)) x1)
    as [vl|] eqn:Ev; [|done].
  cbn [mbind result_bind mret result_ret] in E. injection E as <- <-.
  assert (volatile x1 = volatile state) as Hx1.
  { rewrite (Sequential_forward_volatile _ _ _ _ Ex1).
    rewrite (var_cat_volatile _ _ _ _ Ex), Hhid, orb_false_r.
    apply var_op_volatile in E2 as [-> _].
    exact (Sequential_forward_volatile _ _ _ _ E1). }
  apply var_module_volatile in El as [Hlv Hld].
  apply var_module_volatile in Ev as [Hvv Hvd].
  rewrite Hlv, Hvv, Hld, Hvd, Hx1.
  split; [done|]. split; [done|]. split.
  - by intros ->.
  - intros ->. split; apply list_elem_of_here.
Qed.

End Volatility.

Lemma forward_volatility_witness :
  match fst (@I2A_forward demo demo_agent_5x5
               (Variable_ (Tensor [1; 3; 5; 5] (replicate 75 0%Q)) true)
               (demo_world 0)) with
  | Ok (logit, value) => volatile logit = true /\ grad_deps logit = []
  | Raise _ => False
  end.
Proof.
  destruct (fst (@I2A_forward demo demo_agent_5x5
                   (Variable_ (Tensor [1; 3; 5; 5] (replicate 75 0%Q)) true)
                   (demo_world 0))) as [[logit value]|e] eqn:E.
  - destruct (@forward_volatility demo _ _ _ logit value E)
      as (Hl & _ & Hd & _).
    split; [exact Hl | exact (proj1 (Hd eq_refl))].
  - vm_compute in E. discriminate E.
Defined.
